(** * SudokuSolver: a shallow embedding of [SudokuSolver.cc] and its properties

    The class [SudokuSolver] keeps a 9x9 [int] matrix and three 9x9 [bool]
    tag tables as instance fields and mutates them in place.  Here the
    fields are a record that is threaded through every method, C arrays
    are lists updated by index, [int] cell values and digits are [Z], and
    array indices and loop counters (which only range over 0..9) are
    [nat].  The unbounded [while (true)] of [solveLogical] and the
    recursion of [solveBacktrack] take a fuel argument; both are shown to
    need at most 82 units.  Of [main.cc] the file embeds the reading loop,
    as a function of what the stream extractions leave in [row], [col] and
    [value] turn by turn, and [writeOutFile], as a function on the text of
    the output stream. *)

From Stdlib Require Import ZArith Lia String List Sorted.
From stdpp Require Import base list list_numbers strings pretty.

Local Open Scope nat_scope.

(** ** Two-dimensional C arrays *)

Section Array2D.
Context {A : Type}.

(** [m[i][j]], with [d] standing for a read outside the array. *)
Definition get2 (d : A) (m : list (list A)) (i j : nat) : A :=
  match m !! i with
  | Some r => match r !! j with Some x => x | None => d end
  | None => d
  end.

(** [m[i][j] = x]. *)
Definition set2 (m : list (list A)) (i j : nat) (x : A) : list (list A) :=
  alter (fun r => <[j := x]> r) i m.

(** The shape [T m[9][9]]. *)
Definition shape9 (m : list (list A)) : Prop :=
  length m = 9 /\ forall i r, m !! i = Some r -> length r = 9.

End Array2D.

(** ** The solver object *)

Definition NUM : nat := 9.
Definition ROW : nat := 3.
Definition COL : nat := 3.
Definition BLK : nat := 3.

Record solver : Type := Solver {
  problemMatrix : list (list Z);
  tagRow : list (list bool);
  tagCol : list (list bool);
  tagBlk : list (list bool)
}.

(** [problemMatrix[i][j]] *)
Definition cell (s : solver) (i j : nat) : Z := get2 0%Z (problemMatrix s) i j.

(** [problemMatrix[i][j] = v] *)
Definition setCell (s : solver) (i j : nat) (v : Z) : solver :=
  {| problemMatrix := set2 (problemMatrix s) i j v;
     tagRow := tagRow s; tagCol := tagCol s; tagBlk := tagBlk s |}.

(** The block of cell [(i,j)]: [(i/BLK)*BLK + j/BLK]. *)
Definition blk (i j : nat) : nat := (i / BLK) * BLK + j / BLK.

(** The index [n] of a tag table after the statement [n--]. *)
Definition dig (n : Z) : nat := Z.to_nat (n - 1).

(** [initTag]: every tag becomes false. *)
Definition initTag (s : solver) : solver :=
  {| problemMatrix := problemMatrix s;
     tagRow := replicate NUM (replicate NUM false);
     tagCol := replicate NUM (replicate NUM false);
     tagBlk := replicate NUM (replicate NUM false) |}.

(** [initPuzzle]: every cell becomes 0. *)
Definition initPuzzle (s : solver) : solver :=
  {| problemMatrix := replicate NUM (replicate NUM 0%Z);
     tagRow := tagRow s; tagCol := tagCol s; tagBlk := tagBlk s |}.

(** [checkValid (i, j, c)]: after [c--], none of [tagRow[i][c]],
    [tagCol[c][j]] and [tagBlk[(i/BLK)*BLK+j/BLK][c]] is set. *)
Definition checkValid (s : solver) (i j : nat) (c : Z) : bool :=
  if get2 false (tagRow s) i (dig c) then false
  else if get2 false (tagCol s) (dig c) j then false
  else if get2 false (tagBlk s) (blk i j) (dig c) then false
  else true.

(** [assignTag (i, j, n)]: nothing for [n == 0]; otherwise, after [n--],
    the three tags become true. *)
Definition assignTag (s : solver) (i j : nat) (n : Z) : solver :=
  if (n =? 0)%Z then s
  else
    {| problemMatrix := problemMatrix s;
       tagRow := set2 (tagRow s) i (dig n) true;
       tagCol := set2 (tagCol s) (dig n) j true;
       tagBlk := set2 (tagBlk s) (blk i j) (dig n) true |}.

(** [resetTag (i, j, n)]: the same with false. *)
Definition resetTag (s : solver) (i j : nat) (n : Z) : solver :=
  if (n =? 0)%Z then s
  else
    {| problemMatrix := problemMatrix s;
       tagRow := set2 (tagRow s) i (dig n) false;
       tagCol := set2 (tagCol s) (dig n) j false;
       tagBlk := set2 (tagBlk s) (blk i j) (dig n) false |}.

(** [for (x ...) body], without [break]. *)
Definition for_each {A St : Type} (xs : list A) (body : A -> St -> St) (st : St) : St :=
  fold_left (fun acc x => body x acc) xs st.

(** [for (x ...) body], where the body says whether it ran into [break]. *)
Fixpoint for_break {A St : Type} (xs : list A) (body : A -> St -> St * bool) (st : St) : St :=
  match xs with
  | [] => st
  | x :: xs' =>
      let '(st', brk) := body x st in
      if brk then st' else for_break xs' body st'
  end.

(** [fillTags]: [assignTag (i, j, problemMatrix[i][j])] for every cell. *)
Definition fillTags (s : solver) : solver :=
  for_each (seq 0 NUM) (fun i =>
    for_each (seq 0 NUM) (fun j s => assignTag s i j (cell s i j))) s.

(** ** Backtracking *)

(** The loop [for (val = 1; val <= NUM; val++)] of [solveBacktrack] on the
    digits [vals] still to try, followed by the three statements after the
    loop.  [next] is the recursive call [solveBacktrack (i+1, j, proMat)]. *)
Fixpoint tryVals (next : solver -> option (bool * solver)) (i j : nat)
    (vals : list Z) (s : solver) : option (bool * solver) :=
  match vals with
  | [] => Some (false, setCell (resetTag s i j (cell s i j)) i j 0%Z)
  | val :: vals' =>
      if checkValid s i j val then
        match next (assignTag (setCell s i j val) i j val) with
        | None => None
        | Some (true, s') => Some (true, s')
        | Some (false, s') => tryVals next i j vals' (resetTag s' i j (cell s' i j))
        end
      else tryVals next i j vals' s
  end.

(** [solveBacktrack (i, j, proMat)].  Its only caller passes
    [problemMatrix] for [proMat], so [proMat[i][j]] is the cell of the
    object.  [None] stands for a recursion deeper than [fuel]. *)
Fixpoint solveBacktrack (fuel : nat) (i j : nat) (s : solver) : option (bool * solver) :=
  match fuel with
  | O => None
  | S fuel' =>
      let '(i, j, done) :=
        if i =? NUM then (0, S j, S j =? NUM) else (i, j, false) in
      if done then Some (true, s)
      else if (0 <? cell s i j)%Z then solveBacktrack fuel' (i + 1) j s
      else tryVals (solveBacktrack fuel' (i + 1) j) i j (seqZ 1 (Z.of_nat NUM)) s
  end.

(** ** Logical solving *)

(** The local variables of [solveLogical] that outlive one loop body. *)
Record locals : Type := Locals {
  row : nat;
  col : nat;
  cnt : nat;
  flagNotSingle : bool;
  flagValueSet : bool
}.

(** The body of the innermost loop, the same in the three scans: the cell
    looked at is [problemMatrix[i][j]]; the boolean is [break]. *)
Definition visit (s : solver) (l : Z) (i j : nat) (v : locals) : locals * bool :=
  if (0 <? cell s i j)%Z then (v, false)
  else
    let v1 :=
      if checkValid s i j l
      then Locals i j (S (cnt v)) (flagNotSingle v) (flagValueSet v)
      else v in
    if 1 <? cnt v1
    then (Locals (row v1) (col v1) (cnt v1) true (flagValueSet v1), true)
    else (v1, false).

(** [if (cnt == 1) { problemMatrix[row][col] = l; assignTag (row, col, l);
    flagValueSet = true; }] *)
Definition commit (l : Z) (s : solver) (v : locals) : solver * locals :=
  if cnt v =? 1
  then (assignTag (setCell s (row v) (col v) l) (row v) (col v) l,
        Locals (row v) (col v) (cnt v) (flagNotSingle v) true)
  else (s, v).

(** One digit [l] in one block [k] (first scan). *)
Definition blockStep (k : nat) (l : Z) (st : solver * locals) : solver * locals :=
  let '(s, v) := st in
  let v0 := Locals (row v) (col v) 0 false (flagValueSet v) in
  let v1 :=
    for_break (seq ((k / COL) * COL) COL) (fun i v =>
      let v' := for_break (seq ((k mod COL) * ROW) ROW) (visit s l i) v in
      (v', flagNotSingle v')) v0 in
  commit l s v1.

(** One digit [l] over [problemMatrix[i][0..8]] (second scan, labelled
    "Check all columns" in the source). *)
Definition columnStep (i : nat) (l : Z) (st : solver * locals) : solver * locals :=
  let '(s, v) := st in
  let v0 := Locals (row v) (col v) 0 (flagNotSingle v) (flagValueSet v) in
  commit l s (for_break (seq 0 NUM) (fun j => visit s l i j) v0).

(** One digit [l] over [problemMatrix[0..8][i]] (third scan, labelled
    "Check all rows" in the source). *)
Definition rowStep (i : nat) (l : Z) (st : solver * locals) : solver * locals :=
  let '(s, v) := st in
  let v0 := Locals (row v) (col v) 0 (flagNotSingle v) (flagValueSet v) in
  commit l s (for_break (seq 0 NUM) (fun j => visit s l j i) v0).

(** [for (k = 0; k < NUM; k++) for (l = 1; l < NUM+1; l++)] *)
Definition checkBlocks (st : solver * locals) : solver * locals :=
  for_each (seq 0 NUM) (fun k =>
    for_each (seqZ 1 (Z.of_nat (NUM + 1) - 1)) (fun l => blockStep k l)) st.

(** [for (i = 0; i < NUM; i++) for (l = 1; l < NUM; l++)] *)
Definition checkColumns (st : solver * locals) : solver * locals :=
  for_each (seq 0 NUM) (fun i =>
    for_each (seqZ 1 (Z.of_nat NUM - 1)) (fun l => columnStep i l)) st.

(** The same loops around the third scan. *)
Definition checkRows (st : solver * locals) : solver * locals :=
  for_each (seq 0 NUM) (fun i =>
    for_each (seqZ 1 (Z.of_nat NUM - 1)) (fun l => rowStep i l)) st.

(** One turn of the [while (true)] loop, up to its last [if]. *)
Definition pass (st : solver * locals) : solver * locals :=
  let '(s, v) := st in
  checkRows (checkColumns (checkBlocks
    (s, Locals (row v) (col v) (cnt v) (flagNotSingle v) false))).

(** The [while (true)] loop; [None] stands for more than [fuel] turns. *)
Fixpoint logicalLoop (fuel : nat) (st : solver * locals) : option solver :=
  match fuel with
  | O => None
  | S fuel' =>
      let st' := pass st in
      if flagValueSet (snd st') then logicalLoop fuel' st' else Some (fst st')
  end.

Definition solveLogical (fuel : nat) (s : solver) : option solver :=
  logicalLoop fuel (s, Locals 0 0 0 false false).

(** ** The constructor *)

(** [solvePuzzle]: [solveLogical ()], then
    [return solveBacktrack (0, 0, problemMatrix)]. *)
Definition solvePuzzle (fuel : nat) (s : solver) : option (bool * solver) :=
  match solveLogical fuel s with
  | None => None
  | Some s1 => solveBacktrack fuel 0 0 s1
  end.

(** The copy of the digits of [inputMatrix] into [problemMatrix]. *)
Definition readInput (inputMatrix : list (list Z)) (s : solver) : solver :=
  for_each (seq 0 NUM) (fun j =>
    for_each (seq 0 NUM) (fun k s =>
      let x := get2 0%Z inputMatrix j k in
      if ((x <? 1) || (Z.of_nat NUM <? x))%Z then s else setCell s j k x)) s.

(** The copy of [problemMatrix] back into [inputMatrix]. *)
Definition writeBack (s : solver) (inputMatrix : list (list Z)) : list (list Z) :=
  for_each (seq 0 NUM) (fun j =>
    for_each (seq 0 NUM) (fun k m => set2 m j k (cell s j k))) inputMatrix.

(** How a call of the constructor ends: it returns, leaving [inputMatrix]
    as given here, or the process ends in [exit (status)]. *)
Inductive ending : Type :=
  | Returns (inputMatrix : list (list Z))
  | Exits (status : Z).

(** What the caller and the environment see: the ending and what was
    written to [cerr]. *)
Record run : Type := Run { ended : ending; cerr : list string }.

Definition endl : string := String (Ascii.ascii_of_nat 10) EmptyString.

(** The state handed to [solvePuzzle]: the constructor overwrites every
    entry of the four arrays ([initTag], [initPuzzle]) before it reads one,
    so what they held before does not matter. *)
Definition setup (inputMatrix : list (list Z)) : solver :=
  fillTags (readInput inputMatrix (initPuzzle (initTag (Solver [] [] [] [])))).

(** The recursion of [solveBacktrack] is at most 82 calls deep, and
    [solveLogical] leaves its loop after at most 82 turns. *)
Definition enough : nat := 82.

(** The constructor [SudokuSolver (inputMatrix)]. *)
Definition SudokuSolver (inputMatrix : list (list Z)) : option run :=
  match solvePuzzle enough (setup inputMatrix) with
  | None => None
  | Some (true, s) => Some (Run (Returns (writeBack s inputMatrix)) [])
  | Some (false, _) =>
      Some (Run (Exits 1) ["Error: Puzzle cannot  be solved."%string; endl])
  end.

Global Arguments SudokuSolver : simpl never.

Definition emptyMatrix : list (list Z) := replicate 9 (replicate 9 0%Z).

(** ** Vocabulary of the properties *)

(** The cells in the order [0,0], [1,0], ..., [8,0], [0,1], ...: the n-th
    one is in row [n mod 9] of column [n / 9]. *)
Definition colMajor : list (nat * nat) :=
  (fun n => (n mod 9, n / 9)) <$> seq 0 81.

(** The cells in the order [0,0], [0,1], ..., [0,8], [1,0], ...: the n-th
    one is in row [n / 9], column [n mod 9]. *)
Definition rowMajor : list (nat * nat) :=
  (fun n => (n / 9, n mod 9)) <$> seq 0 81.

Global Arguments colMajor : simpl never.
Global Arguments rowMajor : simpl never.
Global Arguments pass : simpl never.
Global Arguments setup : simpl never.

(** The nine cells of a row, of a column and of a block. *)
Definition rowCells (r : nat) : list (nat * nat) := (fun c => (r, c)) <$> seq 0 9.
Definition colCells (c : nat) : list (nat * nat) := (fun r => (r, c)) <$> seq 0 9.
Definition blockCells (k : nat) : list (nat * nat) :=
  i ← seq ((k / 3) * 3) 3; (fun j => (i, j)) <$> seq ((k mod 3) * 3) 3.

(** The object is laid out as declared and its matrix holds 0..9. *)
Definition wf (s : solver) : Prop :=
  shape9 (problemMatrix s) /\ shape9 (tagRow s) /\ shape9 (tagCol s) /\
  shape9 (tagBlk s) /\
  forall i j, i < 9 -> j < 9 -> (0 <= cell s i j <= 9)%Z.

(** A committed placement: the cell gets the digit and its tags are set. *)
Definition place (s : solver) (i j : nat) (v : Z) : solver :=
  assignTag (setCell s i j v) i j v.

(** The tags of every filled cell are set. *)
Definition tagsSet (s : solver) : Prop :=
  forall r c, r < 9 -> c < 9 -> (0 < cell s r c)%Z ->
    get2 false (tagRow s) r (dig (cell s r c)) = true /\
    get2 false (tagCol s) (dig (cell s r c)) c = true /\
    get2 false (tagBlk s) (blk r c) (dig (cell s r c)) = true.

(** Two different cells of [m] that hold the same digit share neither the
    row, nor the column, nor the block. *)
Definition noClash (m : list (list Z)) : Prop :=
  forall r c r' c', r < 9 -> c < 9 -> r' < 9 -> c' < 9 ->
    (r, c) <> (r', c') -> (0 < get2 0 m r c)%Z ->
    get2 0%Z m r c = get2 0%Z m r' c' ->
    r <> r' /\ c <> c' /\ blk r c <> blk r' c'.

(** The tracker invariant. *)
Definition trackerInv (s : solver) : Prop :=
  wf s /\ tagsSet s /\ noClash (problemMatrix s).

(** What the constructor keeps of its argument: the digits 1..9. *)
Definition given (x : Z) : Z :=
  if ((x <? 1) || (Z.of_nat NUM <? x))%Z then 0%Z else x.

(** The given digits respect row, column and block uniqueness. *)
Definition validGivens (m : list (list Z)) : Prop :=
  forall r c r' c', r < 9 -> c < 9 -> r' < 9 -> c' < 9 ->
    (r, c) <> (r', c') -> (0 < given (get2 0 m r c))%Z ->
    given (get2 0%Z m r c) = given (get2 0%Z m r' c') ->
    r <> r' /\ c <> c' /\ blk r c <> blk r' c'.

Definition validGivensb (m : list (list Z)) : bool :=
  forallb (fun p : nat * nat =>
    forallb (fun q : nat * nat =>
      negb (bool_decide (p <> q)
            && (0 <? given (get2 0 m p.1 p.2))%Z
            && (given (get2 0 m p.1 p.2) =? given (get2 0 m q.1 q.2))%Z
            && ((p.1 =? q.1) || (p.2 =? q.2) || (blk p.1 p.2 =? blk q.1 q.2))))
      colMajor) colMajor.

(** How often digit [d] stands in the cells [cells] of [m]. *)
Definition occurrences (m : list (list Z)) (cells : list (nat * nat)) (d : Z) : nat :=
  length (filter (fun p : nat * nat => get2 0%Z m p.1 p.2 = d) cells).

(** A solved grid: digits everywhere, each digit once in each unit. *)
Definition solved (m : list (list Z)) : Prop :=
  (forall r c, r < 9 -> c < 9 -> (1 <= get2 0 m r c <= 9)%Z) /\
  forall u d, u < 9 -> (1 <= d <= 9)%Z ->
    occurrences m (rowCells u) d = 1 /\
    occurrences m (colCells u) d = 1 /\
    occurrences m (blockCells u) d = 1.

(** [fills n s s']: [s'] comes from [s] by [n] committed placements, each
    of a digit that [checkValid] accepts into a cell that is not filled. *)
Inductive fills : nat -> solver -> solver -> Prop :=
  | fills_refl s : fills 0 s s
  | fills_step n s i j v s' :
      i < 9 -> j < 9 -> (1 <= v <= 9)%Z -> (cell s i j <= 0)%Z ->
      checkValid s i j v = true ->
      fills n (place s i j v) s' -> fills (S n) s s'.

(** The empty cells of [cells] that accept digit [l]. *)
Definition accepting (s : solver) (l : Z) (cells : list (nat * nat)) : list (nat * nat) :=
  filter (fun p : nat * nat => (cell s p.1 p.2 <= 0)%Z /\ checkValid s p.1 p.2 l = true) cells.

(** The digits that [checkValid] accepts at a cell. *)
Definition candidates (s : solver) (i j : nat) : list Z :=
  filter (fun d => checkValid s i j d = true) (seqZ 1 9).

(** The number of cells that are not filled. *)
Definition emptyCount (s : solver) : nat :=
  length (filter (fun p : nat * nat => (cell s p.1 p.2 <= 0)%Z) colMajor).

(** The position of call [(i, j)] in the traversal of [solveBacktrack]. *)
Definition pos (i j : nat) : nat := 9 * j + i.

(** The loop of [solveBacktrack] as seen from the state [e] at the entry of
    the call: what is left of a failed digit is only the digit in the cell,
    which the next write to the cell replaces. *)
Fixpoint cleanTry (next : solver -> option (bool * solver)) (i j : nat)
    (vals : list Z) (e : solver) : option (bool * solver) :=
  match vals with
  | [] => Some (false, e)
  | val :: vals' =>
      if checkValid e i j val then
        match next (place e i j val) with
        | None => None
        | Some (true, s') => Some (true, s')
        | Some (false, _) => cleanTry next i j vals' e
        end
      else cleanTry next i j vals' e
  end.

(** ** The search as the specification words it *)

Module Spec.

Definition isLegal (s : solver) (r c : nat) (d : Z) : bool :=
  negb (get2 false (tagRow s) r (dig d))
  && negb (get2 false (tagCol s) (dig d) c)
  && negb (get2 false (tagBlk s) (blk r c) (dig d)).

(** Guess case and dead end: digits in the order of [ds]; a legal digit is
    placed and the search goes on with the next cells; on failure the
    placement is undone (tags cleared, cell emptied) and the next digit is
    tried; when no digit is left the cell is empty and the search fails. *)
Fixpoint guess (rest : solver -> bool * solver) (r c : nat) (ds : list Z)
    (s : solver) : bool * solver :=
  match ds with
  | [] => (false, s)
  | d :: ds' =>
      if isLegal s r c d then
        match rest (place s r c d) with
        | (true, s') => (true, s')
        | (false, s') => guess rest r c ds' (setCell (resetTag s' r c d) r c 0%Z)
        end
      else guess rest r c ds' s
  end.

(** Depth-first search over a linear traversal [cells] of the grid. *)
Fixpoint search (cells : list (nat * nat)) (s : solver) : bool * solver :=
  match cells with
  | [] => (true, s)
  | (r, c) :: cells' =>
      if (0 <? cell s r c)%Z then search cells' s
      else guess (search cells') r c (seqZ 1 9) s
  end.

End Spec.

(** The bodies of the loops of the constructor and of [fillTags] at one
    cell. *)
Definition readStep (inputMatrix : list (list Z)) (p : nat * nat) (s : solver) : solver :=
  let x := get2 0%Z inputMatrix p.1 p.2 in
  if ((x <? 1) || (Z.of_nat NUM <? x))%Z then s else setCell s p.1 p.2 x.

Definition tagStep (p : nat * nat) (s : solver) : solver :=
  assignTag s p.1 p.2 (cell s p.1 p.2).

(** What makes nine cells a unit: they are nine different cells of the
    grid, and any two of them share the row, the column or the block. *)
Definition unitOk (cells : list (nat * nat)) : Prop :=
  length cells = 9 /\ NoDup cells /\
  Forall (fun p : nat * nat => p.1 < 9 /\ p.2 < 9) cells /\
  Forall (fun p : nat * nat =>
    Forall (fun q : nat * nat =>
      p.1 = q.1 \/ p.2 = q.2 \/ blk p.1 p.2 = blk q.1 q.2) cells) cells.

Global Instance unitOk_dec cells : Decision (unitOk cells).
Proof. unfold unitOk. apply _. Defined.

(** The innermost loop of a scan over the cells [cells], in their order. *)
Definition scan (s : solver) (l : Z) (cells : list (nat * nat)) (v : locals) : locals :=
  for_break cells (fun p => visit s l p.1 p.2) v.

(** [stepRel st st']: the object of [st'] comes from the one of [st] by
    committed placements, and [flagValueSet] tells whether there was one. *)
Definition stepRel (st st' : solver * locals) : Prop :=
  exists n, fills n st.1 st'.1 /\
    (n = 0 -> flagValueSet st'.2 = flagValueSet st.2) /\
    (0 < n -> flagValueSet st'.2 = true).

(** No unit has a digit that exactly one of its empty cells accepts, for
    the digits 1..9 in blocks and [1..top] in rows and columns. *)
Definition quiet (top : Z) (s : solver) : Prop :=
  forall u, u < 9 ->
    (forall l, (1 <= l <= 9)%Z -> length (accepting s l (blockCells u)) <> 1) /\
    (forall l, (1 <= l <= top)%Z ->
       length (accepting s l (rowCells u)) <> 1 /\
       length (accepting s l (colCells u)) <> 1).

(** The body of the loop that copies the result back, at one cell. *)
Definition writeStep (s : solver) (p : nat * nat) (m : list (list Z)) : list (list Z) :=
  set2 m p.1 p.2 (cell s p.1 p.2).

(** A grid of given digits from a list of (row, column, digit). *)
Definition puzzle (givens : list (nat * nat * nat)) : list (list Z) :=
  fold_left (fun m g => set2 m g.1.1 g.1.2 (Z.of_nat g.2)) givens emptyMatrix.

(** What the constructor writes to [cerr] before [exit (1)]. *)
Definition complaint : list string :=
  ["Error: Puzzle cannot  be solved."%string; endl].

(** ** Example grids *)

(** Every cell holds 5. *)
Definition fives : list (list Z) := replicate 9 (replicate 9 5%Z).

(** Column 0 holds 1..8 in rows 0..7 and row 8 holds 9 in column 1: no
    digit is left for cell [8,0]. *)
Definition deadColumn : list (list Z) :=
  puzzle [(0, 0, 1); (1, 0, 2); (2, 0, 3); (3, 0, 4); (4, 0, 5); (5, 0, 6);
          (6, 0, 7); (7, 0, 8); (8, 1, 9)].

(** Cell [0,0] sees 2, 3, 4 in its row, 5, 6, 7 in its column and 8, 9 in
    its block. *)
Definition nakedSingle : list (list Z) :=
  puzzle [(0, 3, 2); (0, 4, 3); (0, 5, 4); (3, 0, 5); (4, 0, 6); (5, 0, 7);
          (1, 1, 8); (2, 2, 9)].

(** Row 0 holds 1..8 in columns 0..7. *)
Definition lastOfRow : list (list Z) :=
  puzzle [(0, 0, 1); (0, 1, 2); (0, 2, 3); (0, 3, 4); (0, 4, 5); (0, 5, 6);
          (0, 6, 7); (0, 7, 8)].

(** The grid of the unsolvable-detection scenario. *)
Definition twoFives : list (list Z) := puzzle [(0, 0, 5); (0, 1, 5)].

(** Column 0 holds 1..7 in rows 0..6 and row 8 holds 9 in column 5: cell
    [7,0] accepts 8 and 9, cell [8,0] only 8. *)
Definition undoExample : list (list Z) :=
  puzzle [(0, 0, 1); (1, 0, 2); (2, 0, 3); (3, 0, 4); (4, 0, 5); (5, 0, 6);
          (6, 0, 7); (8, 5, 9)].

(** Row 0 holds a 1 in column 5. *)
Definition oneInRow : list (list Z) := puzzle [(0, 5, 1)].

(** The grid that the constructor returns for the empty grid. *)
Definition firstGrid : list (list Z) :=
  [[1; 4; 7; 2; 3; 8; 5; 6; 9];
   [2; 5; 8; 1; 6; 9; 3; 4; 7];
   [3; 6; 9; 4; 5; 7; 1; 2; 8];
   [4; 7; 1; 3; 8; 2; 6; 9; 5];
   [5; 8; 2; 6; 9; 1; 4; 7; 3];
   [6; 9; 3; 5; 7; 4; 2; 8; 1];
   [7; 1; 4; 8; 2; 3; 9; 5; 6];
   [8; 2; 5; 9; 1; 6; 7; 3; 4];
   [9; 3; 6; 7; 4; 5; 8; 1; 2]]%Z.

(** The grid that the constructor returns for [lastOfRow]. *)
Definition lastOfRowGrid : list (list Z) :=
  [[1; 2; 3; 4; 5; 6; 7; 8; 9];
   [4; 6; 8; 1; 7; 9; 2; 5; 3];
   [5; 7; 9; 2; 3; 8; 1; 4; 6];
   [2; 1; 4; 3; 8; 7; 6; 9; 5];
   [3; 8; 5; 6; 9; 2; 4; 7; 1];
   [6; 9; 7; 5; 1; 4; 3; 2; 8];
   [7; 3; 1; 8; 2; 5; 9; 6; 4];
   [8; 4; 2; 9; 6; 1; 5; 3; 7];
   [9; 5; 6; 7; 4; 3; 8; 1; 2]]%Z.

(** Column 0 holds 1..7 in rows 0..6, and rows 7 and 8 each hold a 9: the
    cells [7,0] and [8,0] both accept 8 only. *)
Definition deadEnd : list (list Z) :=
  puzzle [(0, 0, 1); (1, 0, 2); (2, 0, 3); (3, 0, 4); (4, 0, 5); (5, 0, 6);
          (6, 0, 7); (7, 5, 9); (8, 6, 9)].

(** ** Counting tags and filled cells *)

(** The number of digits tagged in row [r], and of filled cells there. *)
Definition rowTagCount (s : solver) (r : nat) : nat :=
  length (filter (fun d => get2 false (tagRow s) r d = true) (seq 0 9)).

Definition rowFilled (s : solver) (r : nat) : nat :=
  length (filter (fun c => (0 < cell s r c)%Z) (seq 0 9)).

(** The number of rows, and of columns, in which the digit with index [k]
    is tagged. *)
Definition tagRowsOf (s : solver) (k : nat) : nat :=
  length (filter (fun r => get2 false (tagRow s) r k = true) (seq 0 9)).

Definition tagColsOf (s : solver) (k : nat) : nat :=
  length (filter (fun c => get2 false (tagCol s) k c = true) (seq 0 9)).

(** ** Vocabulary of the further properties *)

(** Every tag that is set belongs to a filled cell of its row, column or
    block. *)
Definition tagsOnly (s : solver) : Prop :=
  (forall r k, get2 false (tagRow s) r k = true ->
     exists c, c < 9 /\ (0 < cell s r c)%Z /\ dig (cell s r c) = k) /\
  (forall k c, get2 false (tagCol s) k c = true ->
     exists r, r < 9 /\ (0 < cell s r c)%Z /\ dig (cell s r c) = k) /\
  (forall b k, get2 false (tagBlk s) b k = true ->
     exists r c, r < 9 /\ c < 9 /\ blk r c = b /\
       (0 < cell s r c)%Z /\ dig (cell s r c) = k).

(** The tags say which digits the filled cells hold, no more and no less. *)
Definition tagsExact (s : solver) : Prop := wf s /\ tagsSet s /\ tagsOnly s.

(** Cell [r, c] is in the row, the column or the block of cell [i, j]. *)
Definition sameUnit (i j r c : nat) : Prop :=
  r = i \/ c = j \/ blk r c = blk i j.

(** The grid [g] holds, in every filled cell of [s], the digit of [s]. *)
Definition keeps (s : solver) (g : list (list Z)) : Prop :=
  forall r c, r < 9 -> c < 9 -> (0 < cell s r c)%Z -> get2 0%Z g r c = cell s r c.

(** [g] is a solved grid with the given digits of [m] in their cells. *)
Definition solution (m g : list (list Z)) : Prop :=
  solved g /\
  forall r c, r < 9 -> c < 9 -> (0 < given (get2 0 m r c))%Z ->
    get2 0%Z g r c = given (get2 0%Z m r c).

(** The digits of [g] read along the cells [cells]. *)
Definition reading (g : list (list Z)) (cells : list (nat * nat)) : list Z :=
  (fun p : nat * nat => get2 0%Z g p.1 p.2) <$> cells.

(** The lexicographic order of two readings. *)
Fixpoint lexLe (a b : list Z) : Prop :=
  match a, b with
  | [], _ => True
  | _ :: _, [] => False
  | x :: a', y :: b' => (x < y)%Z \/ (x = y /\ lexLe a' b')
  end.

(** A decision of [solved] and of [solution] for grids written out. *)
Definition solvedb (g : list (list Z)) : bool :=
  forallb (fun p : nat * nat =>
    (1 <=? get2 0 g p.1 p.2)%Z && (get2 0 g p.1 p.2 <=? 9)%Z) colMajor
  && forallb (fun u =>
       forallb (fun d =>
         (occurrences g (rowCells u) d =? 1)
         && (occurrences g (colCells u) d =? 1)
         && (occurrences g (blockCells u) d =? 1)) (seqZ 1 9)) (seq 0 9).

Definition solutionb (m g : list (list Z)) : bool :=
  solvedb g
  && forallb (fun p : nat * nat =>
       negb (0 <? given (get2 0 m p.1 p.2))%Z
       || (get2 0 g p.1 p.2 =? given (get2 0 m p.1 p.2))%Z) colMajor.

(** In block 0 only cell [2,2] is left for digit 1. *)
Definition hiddenSingle : list (list Z) :=
  puzzle [(0, 3, 1); (1, 6, 1); (3, 0, 1); (6, 1, 1)].

(** The grid that the constructor returns for [hiddenSingle]. *)
Definition hiddenSingleGrid : list (list Z) :=
  [[2; 5; 8; 1; 4; 6; 3; 7; 9];
   [3; 6; 9; 2; 5; 7; 1; 4; 8];
   [4; 7; 1; 3; 8; 9; 5; 6; 2];
   [1; 2; 3; 4; 7; 8; 6; 9; 5];
   [5; 8; 4; 6; 9; 2; 7; 1; 3];
   [6; 9; 7; 5; 1; 3; 2; 8; 4];
   [7; 1; 2; 8; 3; 4; 9; 5; 6];
   [8; 3; 5; 9; 6; 1; 4; 2; 7];
   [9; 4; 6; 7; 2; 5; 8; 3; 1]]%Z.

(** A 9x9 grid of values that are no digits. *)
Definition garbage : list (list Z) := replicate 9 (replicate 9 (-3)%Z).

(** ** [main.cc]: reading the puzzle and writing the result *)

(** The text that a stream holds: [out << x] appends to it. *)
Notation "out << x" := (String.append out x) (at level 50, left associativity).

Module Main.

(** [initPuzzle (problemMatrix)]: every cell becomes 0. *)
Definition initPuzzle (problemMatrix : list (list Z)) : list (list Z) :=
  for_each (seq 0 9) (fun i =>
    for_each (seq 0 9) (fun j m => set2 m i j 0%Z)) problemMatrix.

(** One turn of the reading loop of [main], from the values that the three
    extractions have left in [row], [col] and [value]. *)
Definition store (t : Z * Z * Z) (problemMatrix : list (list Z)) : list (list Z) :=
  let '(row, col, value) := t in
  if ((row <? 1) || (9 <? row) || (col <? 1) || (9 <? col)
      || (value <? 1) || (9 <? value))%Z
  then problemMatrix
  else set2 problemMatrix (Z.to_nat (row - 1)) (Z.to_nat (col - 1)) value.

(** [initPuzzle] and the reading loop of [main], for a run in which the
    loop ends: [turns] lists, turn by turn, what [row], [col] and [value]
    hold after the extractions, and [problemMatrix] is what the local array
    held before. *)
Definition readPuzzle (turns : list (Z * Z * Z)) (problemMatrix : list (list Z)) :
    list (list Z) :=
  for_each turns store (initPuzzle problemMatrix).

(** [writeOutFile (puzzleName, outFile, problemMatrix)]: the text of
    [outFile] afterwards. *)
Definition writeOutFile (puzzleName : string) (outFile : string)
    (problemMatrix : list (list Z)) : string :=
  let outFile := outFile << puzzleName << endl in
  for_each (seq 0 9) (fun row outFile =>
    let outFile :=
      for_each (seq 0 9) (fun col outFile =>
        let outFile := outFile << " *" << pretty (get2 0%Z problemMatrix row col) << "* " in
        if ((col + 1) mod 3 =? 0) && negb (col =? 8)
        then outFile << " | "
        else outFile) outFile in
    if ((row + 1) mod 3 =? 0) && negb (row =? 8)
    then outFile << endl << "---------------------------------------------------" << endl
    else outFile << endl) outFile.

End Main.

(** The turns of the reading loop that write cell [r,c]. *)
Definition writes (r c : nat) (t : Z * Z * Z) : Prop :=
  t.1.1 = (Z.of_nat r + 1)%Z /\ t.1.2 = (Z.of_nat c + 1)%Z /\ (1 <= t.2 <= 9)%Z.

Global Instance writes_dec r c t : Decision (writes r c t).
Proof. unfold writes. apply _. Defined.

(** Every cell holds 0 or a digit. *)
Definition digitsOrZero (m : list (list Z)) : Prop :=
  forall r c, r < 9 -> c < 9 -> (0 <= get2 0 m r c <= 9)%Z.

(** The concatenation of pieces of text. *)
Definition flat (pieces : list string) : string := fold_right String.append EmptyString pieces.

(** What [writeOutFile] writes for a cell, after a row and for a row. *)
Definition cellText (m : list (list Z)) (row col : nat) : string :=
  " *" +:+ pretty (get2 0%Z m row col) +:+ "* "
  +:+ (if ((col + 1) mod 3 =? 0) && negb (col =? 8) then " | " else "").

Definition rowEnd (row : nat) : string :=
  if ((row + 1) mod 3 =? 0) && negb (row =? 8)
  then endl +:+ "---------------------------------------------------" +:+ endl
  else endl.

Definition rowText (m : list (list Z)) (row : nat) : string :=
  flat (cellText m row <$> seq 0 9) +:+ rowEnd row.

(** * Properties *)

(** ** Arrays *)

Section Array2DFacts.
Context {A : Type}.
Implicit Types m : list (list A).

Lemma shape9_set2 m i j x : shape9 m -> shape9 (set2 m i j x).
Proof.
  intros [Hl Hr]. split.
  - unfold set2. by rewrite length_alter.
  - intros i' r. unfold set2. rewrite list_lookup_alter.
    case_decide as Hi; [|by eauto].
    subst i'. destruct (m !! i) as [r0|] eqn:E; simpl; [|done].
    intros [= <-]. rewrite length_insert. eauto.
Qed.

Lemma shape9_replicate (x : A) : shape9 (replicate 9 (replicate 9 x)).
Proof.
  split; [by rewrite length_replicate|].
  intros i r [-> _]%lookup_replicate. by rewrite length_replicate.
Qed.

Lemma get2_set2_eq d m i j x :
  shape9 m -> i < 9 -> j < 9 -> get2 d (set2 m i j x) i j = x.
Proof.
  intros [Hl Hr] Hi Hj. unfold get2, set2. rewrite list_lookup_alter_eq.
  destruct (m !! i) as [r|] eqn:E; simpl.
  - rewrite list_lookup_insert_eq; [done|]. rewrite (Hr _ _ E). lia.
  - apply lookup_ge_None in E. lia.
Qed.

Lemma get2_set2_ne d m i j x i' j' :
  (i', j') <> (i, j) -> get2 d (set2 m i j x) i' j' = get2 d m i' j'.
Proof.
  intros Hne. unfold get2, set2. rewrite list_lookup_alter.
  case_decide as Hi; [|done].
  subst i'. destruct (m !! i) as [r|]; simpl; [|done].
  rewrite list_lookup_insert_ne; [done|]. congruence.
Qed.

Lemma set2_set2 m i j x y : set2 (set2 m i j x) i j y = set2 m i j y.
Proof.
  unfold set2. rewrite list_alter_alter_eq. apply list_alter_ext; [|done].
  intros r _. simpl. by rewrite list_insert_insert_eq.
Qed.

Lemma set2_same d m i j x :
  shape9 m -> i < 9 -> j < 9 -> get2 d m i j = x -> set2 m i j x = m.
Proof.
  intros [Hl Hr] Hi Hj. unfold get2, set2.
  destruct (m !! i) as [r|] eqn:E.
  - destruct (r !! j) as [y|] eqn:E'.
    + intros ->. apply list_eq. intros k. rewrite list_lookup_alter.
      case_decide; [|done]. subst k. rewrite E. simpl.
      by rewrite list_insert_id.
    + apply lookup_ge_None in E'. rewrite (Hr _ _ E) in E'. lia.
  - apply lookup_ge_None in E. lia.
Qed.

(** Writing [x] leaves every entry that already was [x]. *)
Lemma get2_set2_keep d m i j x i' j' :
  shape9 m -> i < 9 -> j < 9 ->
  get2 d m i' j' = x -> get2 d (set2 m i j x) i' j' = x.
Proof.
  intros Hm Hi Hj Hx. destruct (decide ((i', j') = (i, j))) as [[= -> ->]|Hne].
  - by apply get2_set2_eq.
  - by rewrite get2_set2_ne.
Qed.

Lemma get2_set2 d m i j x i' j' :
  shape9 m -> i < 9 -> j < 9 ->
  get2 d (set2 m i j x) i' j' = if decide ((i', j') = (i, j)) then x else get2 d m i' j'.
Proof.
  intros Hm Hi Hj. case_decide as E.
  - injection E as -> ->. by apply get2_set2_eq.
  - by apply get2_set2_ne.
Qed.
End Array2DFacts.

(** ** Indices *)

Lemma dig_lt v : (1 <= v <= 9)%Z -> dig v < 9.
Proof. unfold dig. lia. Qed.

Lemma blk_lt i j : i < 9 -> j < 9 -> blk i j < 9.
Proof.
  intros Hi Hj. unfold blk, BLK.
  assert (i / 3 < 3) by (apply Nat.Div0.div_lt_upper_bound; lia).
  assert (j / 3 < 3) by (apply Nat.Div0.div_lt_upper_bound; lia).
  lia.
Qed.

(** ** The three tracker operations *)

Lemma cell_get2 s i j : cell s i j = get2 0%Z (problemMatrix s) i j.
Proof. done. Qed.

Lemma cell_setCell s i j v i' j' :
  shape9 (problemMatrix s) -> i < 9 -> j < 9 ->
  cell (setCell s i j v) i' j' = if decide ((i', j') = (i, j)) then v else cell s i' j'.
Proof. intros. unfold cell, setCell. simpl. by apply get2_set2. Qed.

Lemma cell_assignTag s i j n i' j' : cell (assignTag s i j n) i' j' = cell s i' j'.
Proof. unfold assignTag. by destruct (n =? 0)%Z. Qed.

Lemma cell_place s i j v i' j' :
  shape9 (problemMatrix s) -> i < 9 -> j < 9 ->
  cell (place s i j v) i' j' = if decide ((i', j') = (i, j)) then v else cell s i' j'.
Proof. intros. unfold place. rewrite cell_assignTag. by apply cell_setCell. Qed.

Lemma checkValid_setCell s i j v i' j' d :
  checkValid (setCell s i j v) i' j' d = checkValid s i' j' d.
Proof. done. Qed.

Lemma checkValid_true s i j d :
  checkValid s i j d = true <->
  get2 false (tagRow s) i (dig d) = false /\
  get2 false (tagCol s) (dig d) j = false /\
  get2 false (tagBlk s) (blk i j) (dig d) = false.
Proof.
  unfold checkValid.
  destruct (get2 false (tagRow s) i (dig d)),
    (get2 false (tagCol s) (dig d) j),
    (get2 false (tagBlk s) (blk i j) (dig d)); intuition congruence.
Qed.

Lemma wf_setCell s i j v : wf s -> i < 9 -> j < 9 -> (0 <= v <= 9)%Z -> wf (setCell s i j v).
Proof.
  intros (Hm & Hr & Hc & Hb & Hv) Hi Hj Hrange.
  split_and!; simpl; try done; [by apply shape9_set2|].
  intros i' j' Hi' Hj'. rewrite cell_setCell by done. case_decide; auto.
Qed.

Lemma wf_assignTag s i j n : wf s -> wf (assignTag s i j n).
Proof.
  intros (Hm & Hr & Hc & Hb & Hv). unfold assignTag.
  destruct (n =? 0)%Z; [done|].
  split_and!; simpl; try done; by apply shape9_set2.
Qed.

Lemma wf_place s i j v : wf s -> i < 9 -> j < 9 -> (1 <= v <= 9)%Z -> wf (place s i j v).
Proof. intros. apply wf_assignTag, wf_setCell; auto; lia. Qed.

(** Clearing the tags of a digit that [checkValid] accepts changes nothing. *)
Lemma resetTag_valid s i j d :
  wf s -> i < 9 -> j < 9 -> (1 <= d <= 9)%Z ->
  checkValid s i j d = true -> resetTag s i j d = s.
Proof.
  intros (Hm & Hr & Hc & Hb & Hv) Hi Hj Hd (H1 & H2 & H3)%checkValid_true.
  pose proof (dig_lt d Hd). pose proof (blk_lt i j Hi Hj).
  unfold resetTag. destruct (Z.eqb_spec d 0); [lia|].
  destruct s as [pm tr tc tb]; simpl in *. f_equal; by eapply set2_same.
Qed.

(** Setting and then clearing the tags of a digit that [checkValid]
    accepted gives back the object as it was. *)
Lemma resetTag_assignTag s i j d :
  wf s -> i < 9 -> j < 9 -> (1 <= d <= 9)%Z ->
  checkValid s i j d = true -> resetTag (assignTag s i j d) i j d = s.
Proof.
  intros Hwf Hi Hj Hd Hv.
  rewrite <- (resetTag_valid s i j d) at 2 by done.
  unfold resetTag, assignTag. destruct (Z.eqb_spec d 0); [lia|].
  simpl. by rewrite !set2_set2.
Qed.

Lemma setCell_setCell s i j x y : setCell (setCell s i j x) i j y = setCell s i j y.
Proof. unfold setCell. simpl. by rewrite set2_set2. Qed.

Lemma setCell_same s i j x :
  wf s -> i < 9 -> j < 9 -> cell s i j = x -> setCell s i j x = s.
Proof.
  intros (Hm & _) Hi Hj Hx. destruct s as [pm tr tc tb]. unfold setCell. simpl in *.
  f_equal. by eapply set2_same.
Qed.

(** ** The traversal of [solveBacktrack] *)

Lemma pos_norm i j :
  i <= 9 -> j < 9 -> pos i j <> 81 ->
  pos i j mod 9 = (if i =? NUM then 0 else i) /\
  pos i j / 9 = (if i =? NUM then S j else j) /\
  (i =? NUM) && (S j =? NUM) = false /\
  pos i j mod 9 < 9 /\ pos i j / 9 < 9 /\
  pos (S (pos i j mod 9)) (pos i j / 9) = S (pos i j).
Proof.
  intros Hi Hj Hn. unfold pos, NUM in *.
  assert (E : (9 * j + i) mod 9 = (if i =? 9 then 0 else i) /\
              (9 * j + i) / 9 = (if i =? 9 then S j else j)).
  { destruct (Nat.eqb_spec i 9) as [->|].
    - split; [symmetry; apply Nat.mod_unique with (q := S j) |
              symmetry; apply Nat.div_unique with (r := 0)]; lia.
    - split; [symmetry; apply Nat.mod_unique with (q := j) |
              symmetry; apply Nat.div_unique with (r := i)]; lia. }
  destruct E as [-> ->].
  destruct (Nat.eqb_spec i 9) as [->|]; destruct (Nat.eqb_spec (S j) 9);
    simpl; split_and!; try done; lia.
Qed.

Lemma solveBacktrack_unfold fuel i j s :
  i <= 9 -> j < 9 ->
  solveBacktrack (S fuel) i j s =
    if decide (pos i j = 81) then Some (true, s)
    else
      let i' := pos i j mod 9 in
      let j' := pos i j / 9 in
      if (0 <? cell s i' j')%Z then solveBacktrack fuel (S i') j' s
      else tryVals (solveBacktrack fuel (S i') j') i' j' (seqZ 1 9) s.
Proof.
  intros Hi Hj. case_decide as Hn.
  - assert (i = 9 /\ j = 8) as [-> ->] by (unfold pos in Hn; lia). done.
  - destruct (pos_norm i j Hi Hj Hn) as (E1 & E2 & E3 & _).
    cbn [solveBacktrack]. cbv zeta. rewrite E1, E2.
    destruct (i =? NUM); simpl in E3.
    + change (S j =? NUM) with (j =? 8). by rewrite E3.
    + by rewrite !Nat.add_1_r.
Qed.

(** ** Failure of the search leaves the object as it was *)

Lemma seqZ_digits d : d ∈ seqZ 1 9 <-> (1 <= d <= 9)%Z.
Proof. rewrite elem_of_seqZ. lia. Qed.

Lemma tryVals_clean next i j vals e v :
  wf e -> i < 9 -> j < 9 -> cell e i j = 0%Z ->
  Forall (fun d => (1 <= d <= 9)%Z) vals ->
  (forall s s', wf s -> next s = Some (false, s') -> s' = s) ->
  v = 0%Z \/ ((1 <= v <= 9)%Z /\ checkValid e i j v = true) ->
  tryVals next i j vals (setCell e i j v) = cleanTry next i j vals e.
Proof.
  intros Hwf Hi Hj He Hvals Hnext. revert v.
  assert (Hm : shape9 (problemMatrix e)) by apply Hwf.
  induction Hvals as [|val vals Hval Hvals IH]; intros v Hv; simpl.
  - rewrite cell_setCell by done. rewrite decide_True by done.
    assert (resetTag (setCell e i j v) i j v = setCell e i j v) as ->.
    { destruct Hv as [->|[Hr Hc]]; [done|].
      apply resetTag_valid; try done. apply wf_setCell; auto; lia. }
    rewrite setCell_setCell. by rewrite setCell_same.
  - rewrite checkValid_setCell. destruct (checkValid e i j val) eqn:Hc; [|by apply IH].
    rewrite setCell_setCell. fold (place e i j val).
    destruct (next (place e i j val)) as [[[] s']|] eqn:Hn; try done.
    apply Hnext in Hn as ->; [|by apply wf_place].
    rewrite cell_place by done. rewrite decide_True by done.
    unfold place. rewrite resetTag_assignTag; try done.
    + apply IH. right. done.
    + apply wf_setCell; auto; lia.
Qed.

Lemma tryVals_entry next i j vals e :
  wf e -> i < 9 -> j < 9 -> (cell e i j <= 0)%Z ->
  Forall (fun d => (1 <= d <= 9)%Z) vals ->
  (forall s s', wf s -> next s = Some (false, s') -> s' = s) ->
  tryVals next i j vals e = cleanTry next i j vals e.
Proof.
  intros Hwf Hi Hj He Hvals Hnext.
  assert (E : cell e i j = 0%Z) by (destruct Hwf as (_ & _ & _ & _ & Hv); specialize (Hv i j Hi Hj); lia).
  rewrite <- (setCell_same e i j 0%Z) at 1 by done.
  apply tryVals_clean; auto.
Qed.

Lemma digits_range : Forall (fun d => (1 <= d <= 9)%Z) (seqZ 1 9).
Proof. apply Forall_forall. intros d. by rewrite seqZ_digits. Qed.

Lemma cleanTry_false next i j vals e s' :
  cleanTry next i j vals e = Some (false, s') -> s' = e.
Proof.
  induction vals as [|val vals IH]; simpl; [congruence|].
  destruct (checkValid e i j val); [|done].
  by destruct (next (place e i j val)) as [[[] ?]|].
Qed.

Lemma cleanTry_true next i j vals e s' :
  cleanTry next i j vals e = Some (true, s') ->
  exists val, val ∈ vals /\ checkValid e i j val = true /\
    next (place e i j val) = Some (true, s').
Proof.
  induction vals as [|val vals IH]; simpl; [congruence|].
  destruct (checkValid e i j val) eqn:Hc.
  - destruct (next (place e i j val)) as [[[] s1]|] eqn:Hn; try done.
    + intros [= <-]. exists val. split; [left|done].
    + intros (v & ? & ?)%IH. exists v. split; [by right|done].
  - intros (v & ? & ?)%IH. exists v. split; [by right|done].
Qed.

Lemma solveBacktrack_false fuel : forall i j s s',
  wf s -> i <= 9 -> j < 9 ->
  solveBacktrack fuel i j s = Some (false, s') -> s' = s.
Proof.
  induction fuel as [|fuel IH]; intros i j s s' Hwf Hi Hj; [done|].
  rewrite solveBacktrack_unfold by done.
  case_decide as Hn; [done|].
  destruct (pos_norm i j Hi Hj Hn) as (_ & _ & _ & Hi' & Hj' & _). cbv zeta.
  destruct (Z.ltb_spec 0 (cell s (pos i j mod 9) (pos i j / 9))) as [Hc|Hc].
  - apply IH; auto with lia.
  - rewrite tryVals_entry; auto using digits_range.
    + apply cleanTry_false.
    + intros s1 s2 Hs1. apply IH; auto with lia.
Qed.

(** ** Committed placements *)

Lemma fills_trans n m s s1 s2 : fills n s s1 -> fills m s1 s2 -> fills (n + m) s s2.
Proof.
  induction 1 as [|n s i j v s1 Hi Hj Hv Hc Hok _ IH]; intros H2; [done|].
  simpl. apply (fills_step _ _ i j v); auto.
Qed.

Lemma fills_one s i j v :
  i < 9 -> j < 9 -> (1 <= v <= 9)%Z -> (cell s i j <= 0)%Z ->
  checkValid s i j v = true -> fills 1 s (place s i j v).
Proof. intros. apply (fills_step _ _ i j v); auto. constructor. Qed.

Lemma fills_wf n s s' : fills n s s' -> wf s -> wf s'.
Proof. induction 1; auto using wf_place. Qed.

(** A filled cell is never written again. *)
Lemma fills_keep n s s' r c :
  fills n s s' -> wf s -> (0 < cell s r c)%Z -> cell s' r c = cell s r c.
Proof.
  induction 1 as [|n s i j v s' Hi Hj Hv Hc Hok _ IH]; intros Hwf Hrc; [done|].
  assert (E : cell (place s i j v) r c = cell s r c).
  { rewrite cell_place by (done || apply Hwf).
    case_decide as E; [|done]. injection E as -> ->. lia. }
  rewrite IH; auto using wf_place. lia.
Qed.

Lemma pos_inj r c i j : r < 9 -> i < 9 -> pos r c = pos i j -> r = i /\ c = j.
Proof. unfold pos. lia. Qed.

Lemma pos_cell r c : r < 9 -> pos r c mod 9 = r /\ pos r c / 9 = c.
Proof.
  intros Hr. unfold pos. split.
  - symmetry. apply Nat.mod_unique with (q := c); lia.
  - symmetry. apply Nat.div_unique with (r := r); lia.
Qed.

(** ** Success of the search *)

Lemma solveBacktrack_true fuel : forall i j s s',
  wf s -> i <= 9 -> j < 9 ->
  solveBacktrack fuel i j s = Some (true, s') ->
  (exists n, fills n s s') /\
  forall r c, r < 9 -> c < 9 -> pos i j <= pos r c -> (0 < cell s' r c)%Z.
Proof.
  induction fuel as [|fuel IH]; intros i j s s' Hwf Hi Hj; [done|].
  rewrite solveBacktrack_unfold by done.
  case_decide as Hn.
  { intros [= <-]. split; [exists 0; constructor|].
    intros r c Hr Hc. unfold pos in *. lia. }
  destruct (pos_norm i j Hi Hj Hn) as (_ & _ & _ & Hi' & Hj' & Hp). cbv zeta.
  set (i' := pos i j mod 9) in *. set (j' := pos i j / 9) in *.
  assert (Hij : pos i' j' = pos i j) by (unfold pos in *; lia).
  destruct (Z.ltb_spec 0 (cell s i' j')) as [Hc|Hc].
  - intros H. apply IH in H as [[n Hf] Hlater]; auto with lia.
    split; [by exists n|]. intros r c Hr Hc' Hle.
    destruct (decide (pos r c = pos i j)) as [E|E].
    + rewrite <- Hij in E. apply pos_inj in E as [-> ->]; auto.
      rewrite (fills_keep _ _ _ _ _ Hf); auto.
    + apply Hlater; auto. lia.
  - rewrite tryVals_entry; auto using digits_range.
    2:{ intros s1 s2 Hs1. apply solveBacktrack_false; auto with lia. }
    intros (val & Hval%seqZ_digits & Hok & H)%cleanTry_true.
    assert (Hwf' : wf (place s i' j' val)) by by apply wf_place.
    apply IH in H as [[n Hf] Hlater]; auto with lia.
    split; [exists (S n); apply (fills_step _ _ i' j' val); auto|].
    intros r c Hr Hc' Hle.
    destruct (decide (pos r c = pos i j)) as [E|E].
    + rewrite <- Hij in E. apply pos_inj in E as [-> ->]; auto.
      assert (E : cell (place s i' j' val) i' j' = val).
      { rewrite cell_place by (done || apply Hwf). by rewrite decide_True. }
      rewrite (fills_keep _ _ _ _ _ Hf); auto; lia.
    + apply Hlater; auto. lia.
Qed.

(** ** The search returns *)

Lemma tryVals_total next i j vals : forall s,
  (forall s1, is_Some (next s1)) -> is_Some (tryVals next i j vals s).
Proof.
  induction vals as [|val vals IH]; intros s Hnext; simpl; [done|].
  destruct (checkValid s i j val); [|by apply IH].
  destruct (Hnext (assignTag (setCell s i j val) i j val)) as [[[] s1] ->]; [done|].
  by apply IH.
Qed.

Lemma solveBacktrack_total fuel : forall i j s,
  i <= 9 -> j < 9 -> 82 <= fuel + pos i j -> is_Some (solveBacktrack fuel i j s).
Proof.
  induction fuel as [|fuel IH]; intros i j s Hi Hj Hf.
  { unfold pos in Hf. lia. }
  rewrite solveBacktrack_unfold by done.
  case_decide as Hn; [done|].
  destruct (pos_norm i j Hi Hj Hn) as (_ & _ & _ & Hi' & Hj' & Hp). cbv zeta.
  destruct (0 <? cell s _ _)%Z.
  - apply IH; lia.
  - apply tryVals_total. intros s1. apply IH; lia.
Qed.

(** ** The tracker invariant under a committed placement *)

Lemma place_inv s i j v :
  trackerInv s -> i < 9 -> j < 9 -> (1 <= v <= 9)%Z -> (cell s i j <= 0)%Z ->
  checkValid s i j v = true -> trackerInv (place s i j v).
Proof.
  intros (Hwf & Htags & Hclash) Hi Hj Hv Hc (V1 & V2 & V3)%checkValid_true.
  pose proof Hwf as (Hm & Hr & Hcl & Hb & _).
  pose proof (dig_lt v Hv) as Hd. pose proof (blk_lt i j Hi Hj) as Hk.
  assert (Hcell : forall r c, cell (place s i j v) r c =
            if decide ((r, c) = (i, j)) then v else cell s r c).
  { intros. by apply cell_place. }
  assert (Htr : tagRow (place s i j v) = set2 (tagRow s) i (dig v) true /\
                tagCol (place s i j v) = set2 (tagCol s) (dig v) j true /\
                tagBlk (place s i j v) = set2 (tagBlk s) (blk i j) (dig v) true).
  { unfold place, assignTag. destruct (Z.eqb_spec v 0); [lia|done]. }
  destruct Htr as (Er & Ec & Eb).
  split_and!.
  - by apply wf_place.
  - intros r c Hr' Hc'. rewrite Hcell, Er, Ec, Eb. case_decide as E.
    + injection E as -> ->. intros _. split_and!; by apply get2_set2_eq.
    + intros Hpos. destruct (Htags r c Hr' Hc' Hpos) as (T1 & T2 & T3).
      split_and!; by apply get2_set2_keep.
  - intros r c r' c' Hr' Hc' Hr'' Hc'' Hne.
    change (get2 0%Z (problemMatrix (place s i j v))) with (cell (place s i j v)).
    rewrite !Hcell.
    destruct (decide ((r, c) = (i, j))) as [E|E];
      destruct (decide ((r', c') = (i, j))) as [E'|E'].
    + congruence.
    + injection E as -> ->. intros Hpos Heq.
      assert (Hpos' : (0 < cell s r' c')%Z) by lia.
      destruct (Htags r' c' Hr'' Hc'' Hpos') as (T1 & T2 & T3).
      rewrite <- Heq in T1, T2, T3. split_and!; congruence.
    + injection E' as -> ->. intros Hpos Heq.
      destruct (Htags r c Hr' Hc' Hpos) as (T1 & T2 & T3).
      rewrite Heq in T1, T2, T3. split_and!; congruence.
    + apply Hclash; auto.
Qed.

Lemma fills_inv n s s' : fills n s s' -> trackerInv s -> trackerInv s'.
Proof. induction 1; auto using place_inv. Qed.

(** ** Loops *)

Section Loops.
Context {A St : Type}.
Implicit Types (xs : list A) (st : St).

Lemma for_each_cons x xs (body : A -> St -> St) st :
  for_each (x :: xs) body st = for_each xs body (body x st).
Proof. done. Qed.

Lemma for_each_app xs ys (body : A -> St -> St) st :
  for_each (xs ++ ys) body st = for_each ys body (for_each xs body st).
Proof. unfold for_each. by rewrite fold_left_app. Qed.

Lemma for_each_fmap {B} (g : B -> A) (zs : list B) (body : A -> St -> St) st :
  for_each (g <$> zs) body st = for_each zs (fun z => body (g z)) st.
Proof. revert st. induction zs as [|z zs IH]; intros st; [done|]. simpl. apply IH. Qed.

(** A property that every turn keeps holds after the loop. *)
Lemma for_each_inv (P : St -> Prop) xs (body : A -> St -> St) st :
  P st -> (forall x st', x ∈ xs -> P st' -> P (body x st')) ->
  P (for_each xs body st).
Proof.
  revert st. induction xs as [|x xs IH]; intros st H0 Hstep; [done|].
  rewrite for_each_cons. apply IH.
  - apply Hstep; [left|done].
  - intros y st' Hy. apply Hstep. by right.
Qed.

(** A reflexive and transitive relation that every turn respects relates
    the state before the loop to the state after it. *)
Lemma for_each_rel (R : St -> St -> Prop) xs (body : A -> St -> St) st :
  (forall a, R a a) -> (forall a b c, R a b -> R b c -> R a c) ->
  (forall x st', x ∈ xs -> R st' (body x st')) ->
  R st (for_each xs body st).
Proof.
  intros Hrefl Htrans Hstep.
  apply (for_each_inv (R st)); [done|].
  intros x st' Hx H. eapply Htrans; [done|]. by apply Hstep.
Qed.

Lemma for_break_inv (P : St -> Prop) xs (body : A -> St -> St * bool) st :
  P st -> (forall x st', x ∈ xs -> P st' -> P (body x st').1) ->
  P (for_break xs body st).
Proof.
  revert st. induction xs as [|x xs IH]; intros st H0 Hstep; [done|].
  simpl. specialize (Hstep x st) as Hx.
  destruct (body x st) as [st' []]; simpl in *.
  - apply Hx; [left|done].
  - apply IH; [apply Hx; [left|done]|].
    intros y st'' Hy. apply Hstep. by right.
Qed.
End Loops.

Lemma for_each_nested {A B St} (xs : list A) (ys : list B)
    (f : A -> B -> St -> St) (st : St) :
  for_each xs (fun x => for_each ys (f x)) st =
  for_each (x ← xs; (fun y => (x, y)) <$> ys) (fun p => f p.1 p.2) st.
Proof.
  revert st. induction xs as [|x xs IH]; intros st; [done|].
  rewrite for_each_cons. change ((x :: xs) ≫= _) with
    (((fun y => (x, y)) <$> ys) ++ (xs ≫= fun x => (fun y => (x, y)) <$> ys)).
  rewrite for_each_app, for_each_fmap. apply IH.
Qed.

Lemma rowMajor_nested : (i ← seq 0 NUM; (fun j => (i, j)) <$> seq 0 NUM) = rowMajor.
Proof. reflexivity. Qed.

Lemma rowMajor_range p : p ∈ rowMajor -> p.1 < 9 /\ p.2 < 9.
Proof.
  unfold rowMajor. intros (n & -> & Hn%elem_of_seq)%list_elem_of_fmap. cbn [fst snd].
  split; [apply Nat.Div0.div_lt_upper_bound | apply Nat.mod_upper_bound]; lia.
Qed.

Lemma rowMajor_all r c : r < 9 -> c < 9 -> (r, c) ∈ rowMajor.
Proof.
  intros Hr Hc. unfold rowMajor. apply list_elem_of_fmap. exists (9 * r + c).
  split; [|apply elem_of_seq; lia].
  f_equal.
  - apply Nat.div_unique with (r := c); lia.
  - apply Nat.mod_unique with (q := r); lia.
Qed.

Lemma colMajor_all r c : r < 9 -> c < 9 -> (r, c) ∈ colMajor.
Proof.
  intros Hr Hc. unfold colMajor. apply list_elem_of_fmap. exists (pos r c).
  destruct (pos_cell r c Hr) as [-> ->]. split; [done|].
  apply elem_of_seq. unfold pos. lia.
Qed.

(** ** The state that the constructor hands to [solvePuzzle] *)

Lemma readInput_cells m s : readInput m s = for_each rowMajor (readStep m) s.
Proof. unfold readInput. by rewrite for_each_nested, rowMajor_nested. Qed.

Lemma fillTags_cells s : fillTags s = for_each rowMajor tagStep s.
Proof. unfold fillTags. by rewrite for_each_nested, rowMajor_nested. Qed.

Lemma given_range x : (0 <= given x <= 9)%Z.
Proof.
  unfold given, NUM.
  destruct (Z.ltb_spec x 1), (Z.ltb_spec (Z.of_nat 9) x); simpl; lia.
Qed.

Lemma readStep_given m p s :
  readStep m p s =
    if decide (given (get2 0%Z m p.1 p.2) = 0%Z) then s
    else setCell s p.1 p.2 (given (get2 0%Z m p.1 p.2)).
Proof.
  unfold readStep, given, NUM. cbv zeta.
  destruct (Z.ltb_spec (get2 0%Z m p.1 p.2) 1),
    (Z.ltb_spec (Z.of_nat 9) (get2 0%Z m p.1 p.2)); simpl;
    try case_decide; try done; lia.
Qed.

Lemma wf_readStep m p s : wf s -> p ∈ rowMajor -> wf (readStep m p s).
Proof.
  intros Hwf [Hr Hc]%rowMajor_range. rewrite readStep_given.
  case_decide; [done|]. apply wf_setCell; auto using given_range.
Qed.

Lemma readStep_cells m L : forall s r c,
  wf s -> (forall p, p ∈ L -> p ∈ rowMajor) ->
  wf (for_each L (readStep m) s) /\
  cell (for_each L (readStep m) s) r c =
    if decide ((r, c) ∈ L /\ given (get2 0%Z m r c) <> 0%Z)
    then given (get2 0%Z m r c) else cell s r c.
Proof.
  induction L as [|p L IH]; intros s r c Hwf HL.
  { split; [done|]. rewrite decide_False; [done|]. intros [H%elem_of_nil _]. done. }
  rewrite for_each_cons.
  assert (Hp : p ∈ rowMajor) by (apply HL; left).
  destruct (IH (readStep m p s) r c) as [Hwf' ->];
    [by apply wf_readStep | intros; apply HL; by right |].
  split; [done|].
  apply rowMajor_range in Hp as [Hr Hc].
  rewrite readStep_given. destruct p as [i j]. simpl in *.
  destruct (decide ((r, c) = (i, j))) as [[= -> ->]|Hne].
  - destruct (decide (given (get2 0%Z m i j) = 0%Z)) as [E|E].
    + rewrite !decide_False by tauto. done.
    + rewrite cell_setCell, (decide_True (P := (i, j) = (i, j))) by (done || apply Hwf).
      rewrite (decide_True (P := (i, j) ∈ (i, j) :: L /\ _)); [|split; [left|done]].
      by case_decide.
  - assert (cell (if decide (given (get2 0%Z m i j) = 0%Z) then s
                  else setCell s i j (given (get2 0%Z m i j))) r c = cell s r c) as ->.
    { case_decide; [done|]. rewrite cell_setCell by (done || apply Hwf).
      by rewrite decide_False. }
    apply decide_ext. rewrite elem_of_cons. intuition congruence.
Qed.

Lemma cell_initial i j : cell (initPuzzle (initTag (Solver [] [] [] []))) i j = 0%Z.
Proof.
  unfold cell, get2, initPuzzle. cbn [problemMatrix].
  destruct (replicate NUM (replicate NUM 0%Z) !! i) as [r|] eqn:E; [|done].
  apply lookup_replicate in E as [-> _].
  destruct (replicate NUM 0%Z !! j) as [x|] eqn:E; [|done].
  by apply lookup_replicate in E as [-> _].
Qed.

Lemma wf_initial : wf (initPuzzle (initTag (Solver [] [] [] []))).
Proof.
  split_and!; try apply shape9_replicate.
  intros i j Hi Hj. rewrite cell_initial. lia.
Qed.

Lemma tagStep_matrix L s :
  problemMatrix (for_each L tagStep s) = problemMatrix s.
Proof.
  apply (for_each_inv (fun st => problemMatrix st = problemMatrix s)); [done|].
  intros p st _ <-. unfold tagStep, assignTag. by destruct (_ =? 0)%Z.
Qed.

Lemma wf_tagStep L s : wf s -> wf (for_each L tagStep s).
Proof. intros H. apply for_each_inv; [done|]. intros. by apply wf_assignTag. Qed.

(** A tag that is set stays set when another one is set. *)
Lemma assignTag_keep s i j n :
  wf s -> i < 9 -> j < 9 -> (0 <= n <= 9)%Z ->
  forall a b,
    (get2 false (tagRow s) a b = true -> get2 false (tagRow (assignTag s i j n)) a b = true) /\
    (get2 false (tagCol s) a b = true -> get2 false (tagCol (assignTag s i j n)) a b = true) /\
    (get2 false (tagBlk s) a b = true -> get2 false (tagBlk (assignTag s i j n)) a b = true).
Proof.
  intros (Hm & Hr & Hc & Hb & _) Hi Hj Hn a b. unfold assignTag.
  destruct (Z.eqb_spec n 0); [done|]. simpl.
  assert (dig n < 9) by (apply dig_lt; lia). pose proof (blk_lt i j Hi Hj).
  split_and!; intros; by apply get2_set2_keep.
Qed.

Lemma tagStep_keep L : forall s a b,
  wf s -> (forall p, p ∈ L -> p ∈ rowMajor) ->
  (get2 false (tagRow s) a b = true -> get2 false (tagRow (for_each L tagStep s)) a b = true) /\
  (get2 false (tagCol s) a b = true -> get2 false (tagCol (for_each L tagStep s)) a b = true) /\
  (get2 false (tagBlk s) a b = true -> get2 false (tagBlk (for_each L tagStep s)) a b = true).
Proof.
  induction L as [|p L IH]; intros s a b Hwf HL; [done|].
  rewrite for_each_cons.
  assert (Hp : p ∈ rowMajor) by (apply HL; left).
  apply rowMajor_range in Hp as [Hr Hc].
  destruct (IH (tagStep p s) a b) as (I1 & I2 & I3);
    [by apply wf_assignTag | intros; apply HL; by right |].
  destruct (assignTag_keep s p.1 p.2 (cell s p.1 p.2) Hwf Hr Hc) with (a := a) (b := b)
    as (K1 & K2 & K3); [by apply Hwf|].
  unfold tagStep at 2 4 6. auto.
Qed.

Lemma tagStep_tags L : forall s r c,
  wf s -> (forall p, p ∈ L -> p ∈ rowMajor) -> (r, c) ∈ L -> (0 < cell s r c)%Z ->
  get2 false (tagRow (for_each L tagStep s)) r (dig (cell s r c)) = true /\
  get2 false (tagCol (for_each L tagStep s)) (dig (cell s r c)) c = true /\
  get2 false (tagBlk (for_each L tagStep s)) (blk r c) (dig (cell s r c)) = true.
Proof.
  induction L as [|p L IH]; intros s r c Hwf HL Hin Hpos.
  { by apply elem_of_nil in Hin. }
  rewrite for_each_cons.
  assert (Hp : p ∈ rowMajor) by (apply HL; left).
  apply rowMajor_range in Hp as [Hr Hc].
  assert (HL' : forall q, q ∈ L -> q ∈ rowMajor) by (intros; apply HL; by right).
  assert (Hwf' : wf (tagStep p s)) by by apply wf_assignTag.
  apply elem_of_cons in Hin as [<-|Hin].
  - simpl in *. pose proof Hwf as (Hm & Htr & Htc & Htb & Hv).
    specialize (Hv r c Hr Hc).
    assert (dig (cell s r c) < 9) by (apply dig_lt; lia).
    pose proof (blk_lt r c Hr Hc).
    destruct (tagStep_keep L (tagStep (r, c) s) r (dig (cell s r c)) Hwf' HL') as (K1 & _ & _).
    destruct (tagStep_keep L (tagStep (r, c) s) (dig (cell s r c)) c Hwf' HL') as (_ & K2 & _).
    destruct (tagStep_keep L (tagStep (r, c) s) (blk r c) (dig (cell s r c)) Hwf' HL') as (_ & _ & K3).
    split_and!; [apply K1 | apply K2 | apply K3];
      unfold tagStep, assignTag; simpl;
      (destruct (Z.eqb_spec (cell s r c) 0); [lia|]); simpl; by apply get2_set2_eq.
  - assert (E : cell (tagStep p s) r c = cell s r c) by apply cell_assignTag.
    rewrite <- E. apply IH; auto. by rewrite E.
Qed.

Lemma setup_eq m :
  setup m = for_each rowMajor tagStep
              (for_each rowMajor (readStep m) (initPuzzle (initTag (Solver [] [] [] [])))).
Proof. unfold setup. by rewrite fillTags_cells, readInput_cells. Qed.

Lemma tagStep_cell L s r c : cell (for_each L tagStep s) r c = cell s r c.
Proof. unfold cell. by rewrite tagStep_matrix. Qed.

Lemma tagStep_tagsSet s : wf s -> tagsSet (for_each rowMajor tagStep s).
Proof.
  intros Hwf r c Hr Hc. rewrite tagStep_cell. intros Hpos.
  apply tagStep_tags; auto using rowMajor_all.
Qed.

Lemma readStep_wf m s : wf s -> wf (for_each rowMajor (readStep m) s).
Proof. intros Hwf. by apply (readStep_cells m rowMajor s 0 0 Hwf). Qed.

Lemma setup_cell m r c : r < 9 -> c < 9 -> cell (setup m) r c = given (get2 0%Z m r c).
Proof.
  intros Hr Hc. rewrite setup_eq, tagStep_cell.
  destruct (readStep_cells m rowMajor _ r c wf_initial) as [_ ->]; [done|].
  rewrite cell_initial. case_decide as E; [done|].
  destruct (decide (given (get2 0%Z m r c) = 0%Z)) as [E'|E']; [done|].
  exfalso. apply E. split; [by apply rowMajor_all|done].
Qed.

Lemma setup_wf m : wf (setup m).
Proof. rewrite setup_eq. apply wf_tagStep, readStep_wf, wf_initial. Qed.

Lemma setup_inv m : validGivens m -> trackerInv (setup m).
Proof.
  intros Hvalid. split_and!.
  - apply setup_wf.
  - rewrite setup_eq. apply tagStep_tagsSet, readStep_wf, wf_initial.
  - intros r c r' c' Hr Hc Hr' Hc' Hne.
    pose proof (setup_cell m r c Hr Hc) as E1.
    pose proof (setup_cell m r' c' Hr' Hc') as E2.
    rewrite cell_get2 in E1, E2. rewrite E1, E2. by apply Hvalid.
Qed.

(** ** A filled grid that respects the invariant is solved *)

Tactic Notation "cases9" ident(u) :=
  destruct u as [|u]; [|destruct u as [|u]; [|destruct u as [|u]; [|destruct u as [|u]; [|destruct u as [|u]; [|destruct u as [|u]; [|destruct u as [|u]; [|destruct u as [|u]; [|destruct u as [|u]; [|exfalso; lia]]]]]]]]].

Ltac by_computation := apply (bool_decide_unpack _); vm_compute; exact I.

Lemma units_ok u :
  u < 9 -> unitOk (rowCells u) /\ unitOk (colCells u) /\ unitOk (blockCells u).
Proof. intros Hu. cases9 u; split_and!; by_computation. Qed.

Lemma filter_none {A} (f : A -> Z) (d : Z) (l : list A) :
  d ∉ f <$> l -> filter (fun x => f x = d) l = [].
Proof.
  induction l as [|x l IH]; [done|]. rewrite fmap_cons, not_elem_of_cons.
  intros [Hx Hl]. rewrite filter_cons_False by congruence. auto.
Qed.

Lemma filter_once {A} (f : A -> Z) (d : Z) (l : list A) :
  NoDup (f <$> l) -> d ∈ f <$> l -> length (filter (fun x => f x = d) l) = 1.
Proof.
  induction l as [|x l IH]; [by intros _ ?%elem_of_nil|].
  rewrite fmap_cons, NoDup_cons. intros [Hx Hl] Hd.
  destruct (decide (f x = d)) as [E|E].
  - rewrite filter_cons_True by done. simpl.
    rewrite filter_none; [done|]. by rewrite <- E.
  - rewrite filter_cons_False by done. apply IH; [done|].
    apply elem_of_cons in Hd as [?|?]; [congruence|done].
Qed.

Lemma unit_once m cells d :
  unitOk cells -> noClash m ->
  (forall r c, r < 9 -> c < 9 -> (1 <= get2 0 m r c <= 9)%Z) ->
  (1 <= d <= 9)%Z -> occurrences m cells d = 1.
Proof.
  intros (Hlen & Hnd & Hrange & Hunit) Hclash Hdig Hd.
  rewrite Forall_forall in Hrange. rewrite Forall_forall in Hunit.
  unfold occurrences. set (f := fun p : nat * nat => get2 0%Z m p.1 p.2).
  assert (Hvals : NoDup (f <$> cells)).
  { apply NoDup_fmap_2_strong; [|done].
    intros [r c] [r' c'] Hp Hq Heq. unfold f in Heq. simpl in Heq.
    destruct (decide ((r, c) = (r', c'))) as [|Hne]; [done|]. exfalso.
    destruct (Hrange _ Hp) as [Hr Hc]. destruct (Hrange _ Hq) as [Hr' Hc'].
    simpl in *. specialize (Hdig r c Hr Hc).
    destruct (Hclash r c r' c') as (N1 & N2 & N3); auto; [lia|].
    pose proof (Hunit _ Hp) as Hrow. rewrite Forall_forall in Hrow.
    specialize (Hrow _ Hq). simpl in Hrow. tauto. }
  apply (filter_once f); [done|].
  assert (Hperm : f <$> cells ≡ₚ seqZ 1 9).
  { apply submseteq_length_Permutation.
    - apply NoDup_submseteq; [done|].
      intros x ([r c] & -> & Hp)%list_elem_of_fmap. apply seqZ_digits.
      destruct (Hrange _ Hp). by apply Hdig.
    - by rewrite length_fmap, Hlen. }
  rewrite Hperm. by apply seqZ_digits.
Qed.

Lemma occurrences_ext m m' cells d :
  (forall p, p ∈ cells -> get2 0%Z m p.1 p.2 = get2 0%Z m' p.1 p.2) ->
  occurrences m cells d = occurrences m' cells d.
Proof.
  intros H. unfold occurrences. f_equal.
  induction cells as [|p cells IH]; [done|].
  assert (Hp := H p ltac:(left)).
  assert (IH' := IH (fun q Hq => H q ltac:(by right))).
  destruct (decide (get2 0%Z m p.1 p.2 = d)) as [E|E].
  - rewrite !filter_cons_True by congruence. by f_equal.
  - rewrite !filter_cons_False by congruence. done.
Qed.

Lemma solved_of_inv s out :
  trackerInv s ->
  (forall r c, r < 9 -> c < 9 -> (0 < cell s r c)%Z) ->
  (forall r c, r < 9 -> c < 9 -> get2 0%Z out r c = cell s r c) ->
  solved out.
Proof.
  intros (Hwf & _ & Hclash) Hfull Hout.
  assert (Hdig : forall r c, r < 9 -> c < 9 -> (1 <= get2 0 (problemMatrix s) r c <= 9)%Z).
  { intros r c Hr Hc. rewrite <- cell_get2.
    destruct Hwf as (_ & _ & _ & _ & Hv).
    specialize (Hv r c Hr Hc). specialize (Hfull r c Hr Hc). lia. }
  split.
  - intros r c Hr Hc. rewrite Hout, cell_get2 by done. by apply Hdig.
  - intros u d Hu Hd. destruct (units_ok u Hu) as (Ur & Uc & Ub).
    assert (E : forall cells, unitOk cells -> occurrences out cells d = 1).
    { intros cells U. rewrite (occurrences_ext out (problemMatrix s)).
      - by apply unit_once.
      - intros p Hp. destruct U as (_ & _ & Hrange & _).
        rewrite Forall_forall in Hrange. destruct (Hrange p Hp).
        rewrite Hout by done. apply cell_get2. }
    auto.
Qed.

(** ** One scan of [solveLogical] *)

Lemma for_break_fmap {A B St} (g : B -> A) (zs : list B)
    (body : A -> St -> St * bool) (st : St) :
  for_break (g <$> zs) body st = for_break zs (fun z => body (g z)) st.
Proof.
  revert st. induction zs as [|z zs IH]; intros st; [done|]. simpl.
  destruct (body (g z) st) as [st' []]; [done|apply IH].
Qed.

Lemma visit_cases s l i j v :
  cnt v <= 1 ->
  visit s l i j v =
    if bool_decide ((cell s i j <= 0)%Z /\ checkValid s i j l = true)
    then (Locals i j (S (cnt v)) (flagNotSingle v || (cnt v =? 1)) (flagValueSet v),
          cnt v =? 1)
    else (v, false).
Proof.
  intros Hc. unfold visit.
  destruct (Z.ltb_spec 0 (cell s i j)) as [Hpos|Hpos].
  { rewrite bool_decide_eq_false_2; [done|]. lia. }
  destruct (checkValid s i j l) eqn:Hok.
  - rewrite bool_decide_eq_true_2 by done. simpl.
    destruct (cnt v) as [|[|n]]; simpl; rewrite ?orb_false_r, ?orb_true_r; done || lia.
  - rewrite bool_decide_eq_false_2 by (intros [_ ?]; done).
    destruct (cnt v) as [|[|n]]; simpl; [done|done|lia].
Qed.

Lemma accepting_cons s l p cells :
  accepting s l (p :: cells) =
    if bool_decide ((cell s p.1 p.2 <= 0)%Z /\ checkValid s p.1 p.2 l = true)
    then p :: accepting s l cells else accepting s l cells.
Proof.
  unfold accepting. case_bool_decide.
  - by rewrite filter_cons_True.
  - by rewrite filter_cons_False.
Qed.

Lemma scan_nil s l v : scan s l [] v = v.
Proof. done. Qed.

Lemma scan_cons s l p cells v :
  scan s l (p :: cells) v =
    let '(v', b) := visit s l p.1 p.2 v in if b then v' else scan s l cells v'.
Proof. done. Qed.

Lemma scan_spec s l cells : forall v,
  cnt v <= 1 ->
  cnt (scan s l cells v) = Nat.min 2 (cnt v + length (accepting s l cells)) /\
  flagValueSet (scan s l cells v) = flagValueSet v /\
  flagNotSingle (scan s l cells v) = flagNotSingle v || (1 <? cnt (scan s l cells v)).
Proof.
  induction cells as [|p cells IH]; intros v Hc.
  { rewrite scan_nil. change (accepting s l []) with (@nil (nat * nat)).
    cbn [length]. split_and!; [lia|done|].
    destruct (Nat.ltb_spec 1 (cnt v)); [lia|by rewrite orb_false_r]. }
  rewrite scan_cons, visit_cases, accepting_cons by done.
  case_bool_decide; [|by apply IH].
  destruct (cnt v) as [|[|n]] eqn:E; [| |lia]; cbn [Nat.eqb].
  - destruct (IH (Locals p.1 p.2 1 (flagNotSingle v || false) (flagValueSet v)))
      as (I1 & I2 & I3); [cbn [cnt]; lia|].
    cbn [cnt flagValueSet flagNotSingle length] in *.
    split_and!; [lia|done|]. by rewrite I3, orb_false_r.
  - cbn [cnt flagValueSet flagNotSingle length].
    split_and!; [lia|done|reflexivity].
Qed.

Lemma scan_app s l xs ys v :
  cnt v <= 1 ->
  scan s l (xs ++ ys) v =
    if 1 <? cnt (scan s l xs v) then scan s l xs v else scan s l ys (scan s l xs v).
Proof.
  revert v. induction xs as [|p xs IH]; intros v Hc.
  { rewrite app_nil_l, scan_nil. by destruct (Nat.ltb_spec 1 (cnt v)); [lia|]. }
  rewrite <- app_comm_cons, !scan_cons, visit_cases by done.
  case_bool_decide; [|by apply IH].
  destruct (cnt v) as [|[|n]] eqn:E; [| |lia]; cbn [Nat.eqb]; [|done].
  apply IH. cbn [cnt]. lia.
Qed.

(** The cell that a scan has found is an empty cell that accepts the digit. *)
Lemma scan_found s l cells v :
  cnt v = 0 -> 1 <= cnt (scan s l cells v) ->
  (row (scan s l cells v), col (scan s l cells v)) ∈ accepting s l cells.
Proof.
  intros Hv. unfold scan.
  apply (for_break_inv (fun v' => 1 <= cnt v' -> (row v', col v') ∈ accepting s l cells)).
  { rewrite Hv. lia. }
  intros p v' Hp IH. unfold visit.
  destruct (Z.ltb_spec 0 (cell s p.1 p.2)) as [Hpos|Hpos]; [done|].
  destruct (checkValid s p.1 p.2 l) eqn:Hok.
  - assert ((p.1, p.2) ∈ accepting s l cells).
    { unfold accepting. apply list_elem_of_filter. split; [done|]. by destruct p. }
    simpl. by destruct (1 <? S (cnt v')).
  - by destruct (1 <? cnt v').
Qed.

(** The two loops of the first scan visit the cells of the block in order
    and stop as the single loop does. *)
Lemma block_scan s l (rs js : list nat) : forall v,
  cnt v <= 1 -> flagNotSingle v = false ->
  for_break rs (fun i v =>
    let v' := for_break js (visit s l i) v in (v', flagNotSingle v')) v =
  scan s l (i ← rs; (fun j => (i, j)) <$> js) v.
Proof.
  induction rs as [|i rs IH]; intros v Hc Hf; [done|].
  change ((i :: rs) ≫= _) with
    (((fun j => (i, j)) <$> js) ++ (rs ≫= fun i => (fun j => (i, j)) <$> js)).
  rewrite scan_app by done. simpl.
  assert (E : for_break js (visit s l i) v = scan s l ((fun j => (i, j)) <$> js) v).
  { unfold scan. by rewrite for_break_fmap. }
  rewrite E. destruct (scan_spec s l ((fun j => (i, j)) <$> js) v Hc) as (S1 & _ & S3).
  rewrite S3, Hf. simpl.
  destruct (Nat.ltb_spec 1 (cnt (scan s l ((fun j => (i, j)) <$> js) v))) as [H|H]; [done|].
  apply IH; [done|]. by rewrite S3, Hf.
Qed.

Lemma blockStep_scan k l s v :
  blockStep k l (s, v) =
    commit l s (scan s l (blockCells k) (Locals (row v) (col v) 0 false (flagValueSet v))).
Proof. unfold blockStep. rewrite block_scan; [done | cbn [cnt]; lia | done]. Qed.

Lemma columnStep_scan i l s v :
  columnStep i l (s, v) =
    commit l s (scan s l (rowCells i)
      (Locals (row v) (col v) 0 (flagNotSingle v) (flagValueSet v))).
Proof. unfold columnStep, scan, rowCells. by rewrite for_break_fmap. Qed.

Lemma rowStep_scan i l s v :
  rowStep i l (s, v) =
    commit l s (scan s l (colCells i)
      (Locals (row v) (col v) 0 (flagNotSingle v) (flagValueSet v))).
Proof. unfold rowStep, scan, colCells. by rewrite for_break_fmap. Qed.

(** ** One turn of the loop of [solveLogical] *)

Lemma stepRel_refl st : stepRel st st.
Proof. exists 0. split_and!; [constructor|done|lia]. Qed.

Lemma stepRel_trans a b c : stepRel a b -> stepRel b c -> stepRel a c.
Proof.
  intros (n & Hn & Hn0 & Hn1) (m & Hm & Hm0 & Hm1). exists (n + m). split_and!.
  - by eapply fills_trans.
  - intros H. rewrite Hm0, Hn0; [done|lia|lia].
  - intros H. destruct m as [|m]; [|apply Hm1; lia].
    rewrite Hm0 by done. apply Hn1. lia.
Qed.

Lemma accepting_elem s l cells p :
  p ∈ accepting s l cells <->
  p ∈ cells /\ (cell s p.1 p.2 <= 0)%Z /\ checkValid s p.1 p.2 l = true.
Proof. unfold accepting. rewrite list_elem_of_filter. tauto. Qed.

Lemma commit_rel s l cells v v0 :
  Forall (fun p : nat * nat => p.1 < 9 /\ p.2 < 9) cells -> (1 <= l <= 9)%Z ->
  cnt v0 = 0 -> flagValueSet v0 = flagValueSet v ->
  stepRel (s, v) (commit l s (scan s l cells v0)).
Proof.
  intros Hrange Hl Hc Hf. rewrite Forall_forall in Hrange.
  destruct (scan_spec s l cells v0) as (_ & S2 & _); [lia|].
  unfold commit. destruct (Nat.eqb_spec (cnt (scan s l cells v0)) 1) as [E|E].
  - assert (Hfound := scan_found s l cells v0 Hc ltac:(lia)).
    apply accepting_elem in Hfound as (Hin & Hempty & Hok).
    destruct (Hrange _ Hin) as [Hr Hcl]. simpl in *.
    exists 1. split_and!; [|done|done].
    by apply fills_one.
  - exists 0. split_and!; [constructor| |lia]. intros _. simpl. congruence.
Qed.

Lemma blockStep_rel k l st :
  k < 9 -> (1 <= l <= 9)%Z -> stepRel st (blockStep k l st).
Proof.
  intros Hk Hl. destruct st as [s v]. rewrite blockStep_scan.
  apply commit_rel; try done. by apply (units_ok k Hk).
Qed.

Lemma columnStep_rel i l st :
  i < 9 -> (1 <= l <= 9)%Z -> stepRel st (columnStep i l st).
Proof.
  intros Hi Hl. destruct st as [s v]. rewrite columnStep_scan.
  apply commit_rel; try done. by apply (units_ok i Hi).
Qed.

Lemma rowStep_rel i l st :
  i < 9 -> (1 <= l <= 9)%Z -> stepRel st (rowStep i l st).
Proof.
  intros Hi Hl. destruct st as [s v]. rewrite rowStep_scan.
  apply commit_rel; try done. by apply (units_ok i Hi).
Qed.

Lemma scan_loops_rel (step : nat -> Z -> solver * locals -> solver * locals) len st :
  (1 <= len <= 9)%Z ->
  (forall i l st', i < 9 -> (1 <= l <= 9)%Z -> stepRel st' (step i l st')) ->
  stepRel st (for_each (seq 0 NUM) (fun i => for_each (seqZ 1 len) (fun l => step i l)) st).
Proof.
  intros Hlen Hstep.
  apply for_each_rel; [apply stepRel_refl | apply stepRel_trans |].
  intros i st1 Hi%elem_of_seq.
  apply for_each_rel; [apply stepRel_refl | apply stepRel_trans |].
  intros l st2 Hl%elem_of_seqZ. apply Hstep; unfold NUM in *; lia.
Qed.

Lemma checkBlocks_rel st : stepRel st (checkBlocks st).
Proof. apply (scan_loops_rel blockStep); [by vm_compute | apply blockStep_rel]. Qed.

Lemma checkColumns_rel st : stepRel st (checkColumns st).
Proof. apply (scan_loops_rel columnStep); [by vm_compute | apply columnStep_rel]. Qed.

Lemma checkRows_rel st : stepRel st (checkRows st).
Proof. apply (scan_loops_rel rowStep); [by vm_compute | apply rowStep_rel]. Qed.

Lemma pass_unfold s v :
  pass (s, v) =
    checkRows (checkColumns (checkBlocks
      (s, Locals (row v) (col v) (cnt v) (flagNotSingle v) false))).
Proof. done. Qed.

Lemma pass_rel s v :
  exists n, fills n s (pass (s, v)).1 /\
    (n = 0 -> flagValueSet (pass (s, v)).2 = false) /\
    (0 < n -> flagValueSet (pass (s, v)).2 = true).
Proof.
  rewrite pass_unfold.
  set (st0 := (s, Locals (row v) (col v) (cnt v) (flagNotSingle v) false)).
  assert (H : stepRel st0 (checkRows (checkColumns (checkBlocks st0)))).
  { apply stepRel_trans with (checkColumns (checkBlocks st0)); [|apply checkRows_rel].
    apply stepRel_trans with (checkBlocks st0); [apply checkBlocks_rel|].
    apply checkColumns_rel. }
  destruct H as (n & Hn & Hn0 & Hn1). exists n. split_and!; [exact Hn|exact Hn0|exact Hn1].
Qed.

Opaque pass.

Lemma logicalLoop_fills fuel : forall st s',
  logicalLoop fuel st = Some s' -> exists n, fills n st.1 s'.
Proof.
  induction fuel as [|fuel IH]; intros [s v] s'; [done|]. cbn [logicalLoop fst].
  destruct (pass_rel s v) as (n & Hn & _).
  destruct (flagValueSet (pass (s, v)).2).
  - intros (m & Hm)%IH. exists (n + m).
    exact (fills_trans n m s (pass (s, v)).1 s' Hn Hm).
  - intros [= <-]. by exists n.
Qed.

(** ** The loop of [solveLogical] ends *)

Lemma filter_flip `{EqDecision A} (P Q : A -> Prop) `{!forall x, Decision (P x)}
    `{!forall x, Decision (Q x)} (L : list A) (x : A) :
  NoDup L -> x ∈ L -> P x -> ~ Q x -> (forall y, y <> x -> (P y <-> Q y)) ->
  length (filter P L) = S (length (filter Q L)).
Proof.
  intros Hnd Hx HP HQ Hrest. induction Hnd as [|y L Hy Hnd IH].
  { by apply elem_of_nil in Hx. }
  destruct (decide (y = x)) as [->|Hne].
  - rewrite filter_cons_True, filter_cons_False by done. simpl. f_equal.
    clear IH Hx. induction L as [|z L IH]; [done|].
    apply not_elem_of_cons in Hy as [Hz Hy]. apply NoDup_cons in Hnd as [_ Hnd].
    specialize (IH Hy Hnd). specialize (Hrest z ltac:(congruence)).
    destruct (decide (P z)).
    + rewrite !filter_cons_True by tauto. simpl. by f_equal.
    + rewrite !filter_cons_False by tauto. done.
  - apply elem_of_cons in Hx as [?|Hx]; [congruence|].
    specialize (IH Hx). specialize (Hrest y Hne).
    destruct (decide (P y)).
    + rewrite !filter_cons_True by tauto. simpl. by f_equal.
    + rewrite !filter_cons_False by tauto. done.
Qed.

Lemma NoDup_colMajor : NoDup colMajor.
Proof. by_computation. Qed.

Lemma emptyCount_place s i j v :
  wf s -> i < 9 -> j < 9 -> (1 <= v <= 9)%Z -> (cell s i j <= 0)%Z ->
  emptyCount s = S (emptyCount (place s i j v)).
Proof.
  intros Hwf Hi Hj Hv Hc. unfold emptyCount.
  apply (filter_flip _ _ colMajor (i, j)); auto using NoDup_colMajor, colMajor_all.
  - simpl. rewrite cell_place by (done || apply Hwf). rewrite decide_True by done. lia.
  - intros [r c] Hne. simpl. rewrite cell_place by (done || apply Hwf).
    by rewrite decide_False.
Qed.

Lemma emptyCount_fills n s s' : fills n s s' -> wf s -> emptyCount s = n + emptyCount s'.
Proof.
  induction 1 as [|n s i j v s' Hi Hj Hv Hc Hok _ IH]; intros Hwf; [done|].
  rewrite (emptyCount_place s i j v) by done. rewrite IH by by apply wf_place. lia.
Qed.

Lemma logicalLoop_total fuel : forall st,
  wf st.1 -> emptyCount st.1 < fuel -> is_Some (logicalLoop fuel st).
Proof.
  induction fuel as [|fuel IH]; intros [s v] Hwf Hlt; [lia|].
  cbn [logicalLoop fst] in *.
  destruct (pass_rel s v) as (n & Hn & Hn0 & _).
  destruct (flagValueSet (pass (s, v)).2) eqn:E; [|done].
  apply IH.
  - exact (fills_wf _ _ _ Hn Hwf).
  - rewrite (emptyCount_fills _ _ _ Hn Hwf) in Hlt.
    destruct n; [by specialize (Hn0 eq_refl)|lia].
Qed.

Lemma emptyCount_le s : emptyCount s <= 81.
Proof. unfold emptyCount. etrans; [apply length_filter|]. by vm_compute. Qed.

Lemma solveLogical_total s : wf s -> is_Some (solveLogical enough s).
Proof.
  intros Hwf. apply logicalLoop_total; [done|].
  pose proof (emptyCount_le s). cbn [fst]. unfold enough. lia.
Qed.

Lemma solveLogical_fills fuel s s' :
  solveLogical fuel s = Some s' -> exists n, fills n s s'.
Proof. apply logicalLoop_fills. Qed.

(** ** The constructor *)

Lemma writeBack_cells s m : writeBack s m = for_each rowMajor (writeStep s) m.
Proof. unfold writeBack. by rewrite for_each_nested, rowMajor_nested. Qed.

Lemma writeStep_cells s L : forall m r c,
  shape9 m -> (forall p, p ∈ L -> p ∈ rowMajor) ->
  shape9 (for_each L (writeStep s) m) /\
  get2 0%Z (for_each L (writeStep s) m) r c =
    if decide ((r, c) ∈ L) then cell s r c else get2 0%Z m r c.
Proof.
  induction L as [|p L IH]; intros m r c Hm HL.
  { split; [done|]. rewrite decide_False; [done|]. apply not_elem_of_nil. }
  rewrite for_each_cons.
  assert (Hp : p ∈ rowMajor) by (apply HL; left).
  apply rowMajor_range in Hp as [Hr Hc].
  destruct (IH (writeStep s p m) r c) as [Hm' ->];
    [by apply shape9_set2 | intros; apply HL; by right |].
  split; [done|]. unfold writeStep. rewrite get2_set2 by done. destruct p as [i j].
  cbn [fst snd] in *.
  destruct (decide ((r, c) = (i, j))) as [[= -> ->]|Hne].
  - rewrite (decide_True (P := (i, j) ∈ (i, j) :: L)) by left. by case_decide.
  - apply decide_ext. rewrite elem_of_cons. intuition congruence.
Qed.

Lemma writeBack_cell s m r c :
  shape9 m -> r < 9 -> c < 9 -> get2 0%Z (writeBack s m) r c = cell s r c.
Proof.
  intros Hm Hr Hc. rewrite writeBack_cells.
  destruct (writeStep_cells s rowMajor m r c Hm) as [_ ->]; [done|].
  rewrite decide_True; [done|]. by apply rowMajor_all.
Qed.

(** The constructor always ends, in one of two ways. *)
Lemma SudokuSolver_cases m :
  exists s1 b s2,
    solveLogical enough (setup m) = Some s1 /\
    solveBacktrack enough 0 0 s1 = Some (b, s2) /\
    solvePuzzle enough (setup m) = Some (b, s2) /\
    SudokuSolver m =
      Some (if b then Run (Returns (writeBack s2 m)) [] else Run (Exits 1) complaint).
Proof.
  destruct (solveLogical_total (setup m) (setup_wf m)) as [s1 H1].
  destruct (solveBacktrack_total enough 0 0 s1) as [[b s2] H2];
    [lia | lia | unfold enough, pos; lia |].
  exists s1, b, s2.
  assert (H3 : solvePuzzle enough (setup m) = Some (b, s2)).
  { unfold solvePuzzle. by rewrite H1. }
  split_and!; [done|done|done|].
  unfold SudokuSolver. rewrite H3. by destruct b.
Qed.

(** What a returned grid is: the matrix after a successful search that
    started from the outcome of the logical pass. *)
Lemma SudokuSolver_returns m out cs :
  shape9 m -> SudokuSolver m = Some (Run (Returns out) cs) ->
  exists n s, fills n (setup m) s /\
    (forall r c, r < 9 -> c < 9 -> (0 < cell s r c)%Z) /\
    (forall r c, r < 9 -> c < 9 -> get2 0%Z out r c = cell s r c).
Proof.
  intros Hm. destruct (SudokuSolver_cases m) as (s1 & b & s2 & H1 & H2 & _ & ->).
  destruct b; [|done]. intros [= <- _].
  destruct (solveLogical_fills _ _ _ H1) as (n1 & F1).
  assert (Hwf1 : wf s1) by (eapply fills_wf; [done|apply setup_wf]).
  destruct (solveBacktrack_true enough 0 0 s1 s2 Hwf1 ltac:(lia) ltac:(lia) H2)
    as ((n2 & F2) & Hfull).
  exists (n1 + n2), s2. split_and!.
  - by eapply fills_trans.
  - intros r c Hr Hc. apply Hfull; auto. unfold pos. lia.
  - intros r c Hr Hc. by apply writeBack_cell.
Qed.

Lemma validGivensb_sound m : validGivensb m = true -> validGivens m.
Proof.
  unfold validGivensb. rewrite forallb_forall.
  intros H r c r' c' Hr Hc Hr' Hc' Hne Hpos Heq.
  specialize (H (r, c)). rewrite <- list_elem_of_In in H.
  specialize (H (colMajor_all r c Hr Hc)). rewrite forallb_forall in H.
  specialize (H (r', c')). rewrite <- list_elem_of_In in H.
  specialize (H (colMajor_all r' c' Hr' Hc')). cbn [fst snd] in H.
  rewrite bool_decide_eq_true_2 in H by done.
  apply Z.ltb_lt in Hpos. apply Z.eqb_eq in Heq. rewrite Hpos, Heq in H.
  simpl in H. apply negb_true_iff in H.
  apply orb_false_iff in H as [H H3]. apply orb_false_iff in H as [H1 H2].
  apply Nat.eqb_neq in H1, H2, H3. done.
Qed.

(** ** Counting along committed placements *)

Lemma filter_same {A} (P Q : A -> Prop) `{!forall x, Decision (P x)}
    `{!forall x, Decision (Q x)} (L : list A) :
  (forall x, x ∈ L -> (P x <-> Q x)) -> length (filter P L) = length (filter Q L).
Proof.
  induction L as [|x L IH]; intros Hiff; [done|].
  assert (Hx := Hiff x ltac:(left)).
  assert (IH' := IH (fun y Hy => Hiff y ltac:(by right))).
  destruct (decide (P x)).
  - rewrite !filter_cons_True by tauto. simpl. by f_equal.
  - rewrite !filter_cons_False by tauto. done.
Qed.

Lemma filter_all {A} (P : A -> Prop) `{!forall x, Decision (P x)} (L : list A) :
  (forall x, x ∈ L -> P x) -> length (filter P L) = length L.
Proof.
  induction L as [|x L IH]; intros Hall; [done|].
  rewrite filter_cons_True by (apply Hall; left). simpl. f_equal.
  apply IH. intros y Hy. apply Hall. by right.
Qed.

Lemma filter_full {A} (P : A -> Prop) `{!forall x, Decision (P x)} (L : list A) x :
  length (filter P L) = length L -> x ∈ L -> P x.
Proof.
  induction L as [|y L IH]; intros Hlen Hx; [by apply elem_of_nil in Hx|].
  destruct (decide (P y)) as [Hy|Hy].
  - rewrite filter_cons_True in Hlen by done. simpl in Hlen.
    apply elem_of_cons in Hx as [->|Hx]; [done|]. apply IH; [lia|done].
  - rewrite filter_cons_False in Hlen by done. simpl in Hlen.
    pose proof (length_filter P L). lia.
Qed.

Section PlaceCounts.
Context (s : solver) (i j : nat) (v : Z).
Context (Hwf : wf s) (Hi : i < 9) (Hj : j < 9) (Hv : (1 <= v <= 9)%Z).
Context (Hempty : (cell s i j <= 0)%Z) (Hok : checkValid s i j v = true).

Lemma place_tagRow a b :
  get2 false (tagRow (place s i j v)) a b =
    if decide ((a, b) = (i, dig v)) then true else get2 false (tagRow s) a b.
Proof.
  unfold place, assignTag. destruct (Z.eqb_spec v 0); [lia|]. cbn [tagRow setCell].
  apply get2_set2; [apply Hwf | done | by apply dig_lt].
Qed.

Lemma place_tagCol a b :
  get2 false (tagCol (place s i j v)) a b =
    if decide ((a, b) = (dig v, j)) then true else get2 false (tagCol s) a b.
Proof.
  unfold place, assignTag. destruct (Z.eqb_spec v 0); [lia|]. cbn [tagCol setCell].
  apply get2_set2; [apply Hwf | by apply dig_lt | done].
Qed.

Lemma place_rowTagCount r :
  rowTagCount (place s i j v) r = rowTagCount s r + (if decide (r = i) then 1 else 0).
Proof.
  apply checkValid_true in Hok as (V1 & _ & _). pose proof (dig_lt v Hv).
  unfold rowTagCount. case_decide as E.
  - subst r. rewrite Nat.add_1_r.
    apply (filter_flip _ _ (seq 0 9) (dig v)); [apply NoDup_seq|apply elem_of_seq; lia| | |].
    + rewrite place_tagRow. by rewrite decide_True.
    + by rewrite V1.
    + intros d Hd. rewrite place_tagRow. rewrite decide_False by congruence. done.
  - rewrite Nat.add_0_r. apply filter_same. intros d _.
    rewrite place_tagRow. rewrite decide_False by congruence. done.
Qed.

Lemma place_rowFilled r :
  rowFilled (place s i j v) r = rowFilled s r + (if decide (r = i) then 1 else 0).
Proof.
  assert (Hm : shape9 (problemMatrix s)) by apply Hwf.
  unfold rowFilled. case_decide as E.
  - subst r. rewrite Nat.add_1_r.
    apply (filter_flip _ _ (seq 0 9) j); [apply NoDup_seq|apply elem_of_seq; lia| | |].
    + rewrite cell_place by done. rewrite decide_True by done. lia.
    + lia.
    + intros c Hc. rewrite cell_place by done. rewrite decide_False by congruence. done.
  - rewrite Nat.add_0_r. apply filter_same. intros c _.
    rewrite cell_place by done. rewrite decide_False by congruence. done.
Qed.

Lemma place_tagRowsOf k :
  tagRowsOf (place s i j v) k = tagRowsOf s k + (if decide (k = dig v) then 1 else 0).
Proof.
  apply checkValid_true in Hok as (V1 & _ & _).
  unfold tagRowsOf. case_decide as E.
  - subst k. rewrite Nat.add_1_r.
    apply (filter_flip _ _ (seq 0 9) i); [apply NoDup_seq|apply elem_of_seq; lia| | |].
    + rewrite place_tagRow. by rewrite decide_True.
    + by rewrite V1.
    + intros r Hr. rewrite place_tagRow. rewrite decide_False by congruence. done.
  - rewrite Nat.add_0_r. apply filter_same. intros r _.
    rewrite place_tagRow. rewrite decide_False by congruence. done.
Qed.

Lemma place_tagColsOf k :
  tagColsOf (place s i j v) k = tagColsOf s k + (if decide (k = dig v) then 1 else 0).
Proof.
  apply checkValid_true in Hok as (_ & V2 & _).
  unfold tagColsOf. case_decide as E.
  - subst k. rewrite Nat.add_1_r.
    apply (filter_flip _ _ (seq 0 9) j); [apply NoDup_seq|apply elem_of_seq; lia| | |].
    + rewrite place_tagCol. by rewrite decide_True.
    + by rewrite V2.
    + intros c Hc. rewrite place_tagCol. rewrite decide_False by congruence. done.
  - rewrite Nat.add_0_r. apply filter_same. intros c _.
    rewrite place_tagCol. rewrite decide_False by congruence. done.
Qed.
End PlaceCounts.

(** Along committed placements a row gains as many tags as filled cells, a
    digit gains as many tagged columns as tagged rows, and no row tag is
    cleared. *)
Lemma fills_counts n s s' :
  fills n s s' -> wf s ->
  (forall r, rowTagCount s' r + rowFilled s r = rowTagCount s r + rowFilled s' r) /\
  (forall k, tagColsOf s' k + tagRowsOf s k = tagColsOf s k + tagRowsOf s' k) /\
  (forall a b, get2 false (tagRow s) a b = true -> get2 false (tagRow s') a b = true).
Proof.
  induction 1 as [|n s i j v s' Hi Hj Hv Hc Hok _ IH]; intros Hwf; [done|].
  destruct IH as (I1 & I2 & I3); [by apply wf_place|].
  split_and!.
  - intros r. specialize (I1 r).
    rewrite place_rowTagCount, place_rowFilled in I1 by done. lia.
  - intros k. specialize (I2 k).
    rewrite place_tagColsOf, place_tagRowsOf in I2 by done. lia.
  - intros a b Hab. apply I3. rewrite place_tagRow by done. by case_decide.
Qed.

(** * The claims *)

Opaque SudokuSolver solvePuzzle solveLogical solveBacktrack setup writeBack.

Lemma shape9_closed {A} (m : list (list A)) :
  length m = 9 -> Forall (fun r => length r = 9) m -> shape9 m.
Proof.
  intros Hl Hr. split; [done|]. intros i r Hi.
  rewrite Forall_forall in Hr. apply Hr. by eapply list_elem_of_lookup_2.
Qed.

Ltac shape := apply shape9_closed; [reflexivity | repeat constructor].

(** ** C1 *)

(** C1, as stated, fails: the constructor accepts the grid that holds 5 in
    every cell and returns it, and there 5 stands nine times in row 0. *)
Lemma solved_output_needs_valid_givens :
  SudokuSolver fives = Some (Run (Returns fives) []) /\
  occurrences fives (rowCells 0) 5 = 9.
Proof. split; by vm_compute. Qed.

(** C1, amended: for every 9x9 input grid whose given digits respect row,
    column and block uniqueness, if the constructor returns, every cell of
    the returned grid holds a digit in 1..9 and every row, column and block
    holds each digit exactly once. *)
Theorem solved_output m out cs :
  shape9 m -> validGivens m ->
  SudokuSolver m = Some (Run (Returns out) cs) ->
  solved out.
Proof.
  intros Hm Hvalid Hrun.
  destruct (SudokuSolver_returns m out cs Hm Hrun) as (n & s & Hfills & Hfull & Hout).
  apply (solved_of_inv s); [|done|done].
  apply (fills_inv n (setup m)); [done|]. by apply setup_inv.
Qed.

Lemma solved_output_witness : solved firstGrid.
Proof.
  apply (solved_output emptyMatrix firstGrid []).
  - apply shape9_replicate.
  - apply validGivensb_sound. by vm_compute.
  - by vm_compute.
Defined.

(** ** C2 *)

(** C2: a digit in 1..9 given in the input grid stands in the same cell of
    the grid that the constructor returns. *)
Theorem givens_kept m r c out cs :
  shape9 m -> r < 9 -> c < 9 -> (1 <= get2 0 m r c <= 9)%Z ->
  SudokuSolver m = Some (Run (Returns out) cs) ->
  get2 0%Z out r c = get2 0%Z m r c.
Proof.
  intros Hm Hr Hc Hgiven Hrun.
  destruct (SudokuSolver_returns m out cs Hm Hrun) as (n & s & Hfills & _ & Hout).
  assert (Hcell : cell (setup m) r c = get2 0%Z m r c).
  { rewrite setup_cell by done. unfold given, NUM.
    destruct (Z.ltb_spec (get2 0%Z m r c) 1), (Z.ltb_spec (Z.of_nat 9) (get2 0%Z m r c));
      simpl; done || lia. }
  rewrite Hout by done. rewrite <- Hcell.
  apply (fills_keep n (setup m)); [done|apply setup_wf|lia].
Qed.

Lemma givens_kept_witness :
  get2 0%Z lastOfRow 0 7 = 8%Z /\
  SudokuSolver lastOfRow = Some (Run (Returns lastOfRowGrid) []) /\
  get2 0%Z lastOfRowGrid 0 7 = get2 0%Z lastOfRow 0 7.
Proof.
  split_and!; [by vm_compute | by vm_compute |].
  apply (givens_kept lastOfRow 0 7 lastOfRowGrid []);
    [shape | lia | lia | by vm_compute | by vm_compute].
Defined.

(** ** C4 *)

(** C4, as stated, fails: in the tracker seeded with a 1 in row 0, placing
    1 at [0,0] and unplacing it clears the row tag that was set before. *)
Lemma place_unplace_needs_legal :
  get2 false (tagRow (setup oneInRow)) 0 (dig 1) = true /\
  get2 false (tagRow (resetTag (assignTag (setup oneInRow) 0 0 1) 0 0 1)) 0 (dig 1) = false.
Proof. split; by vm_compute. Qed.

(** C4, amended: for a digit d in 1..9, [assignTag (r, c, d)] followed by
    [resetTag (r, c, d)] gives back the state it started from exactly when
    [checkValid (r, c, d)] holds in that state, that is, when none of the
    three tags was set. *)
Theorem place_unplace_restores s i j d :
  wf s -> i < 9 -> j < 9 -> (1 <= d <= 9)%Z ->
  resetTag (assignTag s i j d) i j d = s <-> checkValid s i j d = true.
Proof.
  intros Hwf Hi Hj Hd. split; [|by apply resetTag_assignTag].
  intros E. apply checkValid_true. rewrite <- E.
  pose proof (dig_lt d Hd). pose proof (blk_lt i j Hi Hj).
  assert (Hwf' : wf (assignTag s i j d)) by by apply wf_assignTag.
  destruct Hwf' as (_ & Hr & Hc & Hb & _).
  unfold resetTag. destruct (Z.eqb_spec d 0); [lia|]. cbn [tagRow tagCol tagBlk].
  split_and!; by apply get2_set2_eq.
Qed.

Lemma place_unplace_restores_witness :
  resetTag (assignTag (setup emptyMatrix) 0 0 1) 0 0 1 = setup emptyMatrix.
Proof.
  apply (place_unplace_restores (setup emptyMatrix) 0 0 1);
    [apply setup_wf | lia | lia | lia | by vm_compute].
Defined.

(** ** C5 *)

(** C5, as stated, fails: on a grid without solution the constructor writes
    to [cerr] and ends the process with [exit (1)]. *)
Lemma unsolvable_exits :
  SudokuSolver deadColumn = Some (Run (Exits 1) complaint).
Proof. by vm_compute. Qed.

(** C5, amended: for every input grid the constructor ends in one of two
    ways.  When [solvePuzzle] succeeds it returns to the caller with the
    solved grid in [inputMatrix] and nothing written; when [solvePuzzle]
    fails it writes its message to [cerr] and ends the process with
    [exit (1)]. *)
Theorem solver_returns_or_exits m :
  shape9 m ->
  (exists s out,
     solvePuzzle enough (setup m) = Some (true, s) /\
     SudokuSolver m = Some (Run (Returns out) []) /\
     forall r c, r < 9 -> c < 9 -> get2 0%Z out r c = cell s r c) \/
  (exists s,
     solvePuzzle enough (setup m) = Some (false, s) /\
     SudokuSolver m = Some (Run (Exits 1) complaint)).
Proof.
  intros Hm. destruct (SudokuSolver_cases m) as (s1 & b & s2 & _ & _ & Hp & Hrun).
  destruct b; [left|right].
  - exists s2, (writeBack s2 m). split_and!; [done|done|].
    intros r c Hr Hc. by apply writeBack_cell.
  - by exists s2.
Qed.

Lemma solver_returns_or_exits_witness :
  SudokuSolver emptyMatrix = Some (Run (Returns firstGrid) []) \/
  SudokuSolver emptyMatrix = Some (Run (Exits 1) complaint).
Proof.
  destruct (solver_returns_or_exits emptyMatrix (shape9_replicate 0%Z))
    as [(s & out & _ & _ & _)|(s & _ & Hrun)].
  - left. by vm_compute.
  - right. exact Hrun.
Defined.

(** ** C10 *)

(** C10: when a call [solveBacktrack (i, j)] returns false, the matrix and
    the three tag tables are what they were when the call was entered. *)
Theorem failed_search_restores fuel i j s s' :
  wf s -> i <= 9 -> j < 9 ->
  solveBacktrack fuel i j s = Some (false, s') -> s' = s.
Proof.
  intros Hwf Hi Hj Hrun.
  destruct fuel as [|fuel]; [done|].
  exact (solveBacktrack_false (S fuel) i j s s' Hwf Hi Hj Hrun).
Qed.

Lemma failed_search_restores_witness :
  checkValid (setup deadEnd) 7 0 8 = true /\
  exists s', solveBacktrack enough 0 0 (setup deadEnd) = Some (false, s') /\
    s' = setup deadEnd.
Proof.
  split; [by vm_compute|].
  assert (H : exists s', solveBacktrack enough 0 0 (setup deadEnd) = Some (false, s')).
  { vm_compute. eexists. reflexivity. }
  destruct H as [s' H]. exists s'. split; [exact H|].
  apply (failed_search_restores enough 0 0 (setup deadEnd) s');
    [apply setup_wf | lia | lia | exact H].
Defined.

(** ** C9 *)

(** C9, as stated, fails.  In the run on [undoExample] the logical pass
    commits nothing; the search places 8 in the empty cell [7,0], the call
    for the next cell fails, and [resetTag] clears the tags of 8 while the
    cell keeps the 8 until the next digit is written: in that state a filled
    cell has its row tag clear. *)
Lemma undo_breaks_invariant :
  validGivens undoExample /\
  solveLogical enough (setup undoExample) = Some (setup undoExample) /\
  cell (setup undoExample) 7 0 = 0%Z /\
  checkValid (setup undoExample) 7 0 8 = true /\
  solveBacktrack 80 8 0 (place (setup undoExample) 7 0 8) =
    Some (false, place (setup undoExample) 7 0 8) /\
  cell (resetTag (place (setup undoExample) 7 0 8) 7 0
         (cell (place (setup undoExample) 7 0 8) 7 0)) 7 0 = 8%Z /\
  get2 false
    (tagRow (resetTag (place (setup undoExample) 7 0 8) 7 0
              (cell (place (setup undoExample) 7 0 8) 7 0))) 7 (dig 8) = false.
Proof.
  split; [apply validGivensb_sound; by vm_compute|].
  split_and!; by vm_compute.
Qed.

(** C9, amended.  When the given digits respect row, column and block
    uniqueness, the invariant (the tags of every filled cell are set, and
    no two filled cells of a row, column or block hold the same digit)
    holds in the seeded state and in every state reached from it by
    committed placements; from such a state it holds again after a
    committed placement, when [solveLogical] returns, and when a call of
    [solveBacktrack] returns, with success or with failure. *)
Theorem tracker_invariant m n s :
  validGivens m -> fills n (setup m) s ->
  trackerInv s /\
  (forall i j v, i < 9 -> j < 9 -> (1 <= v <= 9)%Z -> (cell s i j <= 0)%Z ->
     checkValid s i j v = true -> trackerInv (place s i j v)) /\
  (forall fuel s', solveLogical fuel s = Some s' -> trackerInv s') /\
  (forall fuel i j b s', i <= 9 -> j < 9 ->
     solveBacktrack fuel i j s = Some (b, s') -> trackerInv s').
Proof.
  intros Hvalid Hfills.
  assert (Hinv : trackerInv s).
  { apply (fills_inv n (setup m)); [done|]. by apply setup_inv. }
  split_and!; [done| | |].
  - intros i j v Hi Hj Hv Hc Hok. by apply place_inv.
  - intros fuel s' (k & Hk)%solveLogical_fills. by apply (fills_inv k s).
  - intros fuel i j b s' Hi Hj Hrun. destruct b.
    + destruct (solveBacktrack_true fuel i j s s') as ((k & Hk) & _); auto.
      { apply Hinv. }
      by apply (fills_inv k s).
    + apply solveBacktrack_false in Hrun as ->; auto. apply Hinv.
Qed.

Lemma tracker_invariant_witness : trackerInv (setup undoExample).
Proof.
  assert (Hvalid : validGivens undoExample).
  { apply validGivensb_sound. by vm_compute. }
  exact (proj1 (tracker_invariant undoExample 0 (setup undoExample) Hvalid
                  (fills_refl (setup undoExample)))).
Defined.

(** ** C8 *)

Lemma twoFives_rows r :
  1 <= r < 9 -> rowTagCount (setup twoFives) r = 0 /\ rowFilled (setup twoFives) r = 0.
Proof. intros Hr. cases9 r; try lia; split; by vm_compute. Qed.

(** No sequence of committed placements fills the grid with the two 5s:
    each of the rows 1..8 would need its 5 in a column of its own among the
    columns 2..8. *)
Lemma twoFives_no_completion n s :
  fills n (setup twoFives) s ->
  (forall r c, r < 9 -> c < 9 -> (0 < cell s r c)%Z) -> False.
Proof.
  intros Hfills Hfull.
  destruct (fills_counts n _ s Hfills (setup_wf twoFives)) as (C1 & C2 & C3).
  assert (Hrows : forall r, r ∈ seq 0 9 -> get2 false (tagRow s) r 4 = true).
  { intros r Hr%elem_of_seq. destruct (decide (r = 0)) as [->|Hne].
    - apply C3. by vm_compute.
    - destruct (twoFives_rows r) as [T F]; [lia|]. specialize (C1 r).
      assert (Hfilled : rowFilled s r = 9).
      { unfold rowFilled. rewrite filter_all; [done|].
        intros c Hc%elem_of_seq. apply Hfull; lia. }
      assert (Htags : rowTagCount s r = length (seq 0 9)).
      { rewrite length_seq. lia. }
      apply (filter_full _ _ 4) in Htags; [done|]. apply elem_of_seq. lia. }
  assert (Hall : tagRowsOf s 4 = 9).
  { unfold tagRowsOf. by rewrite filter_all. }
  assert (H0 : tagColsOf (setup twoFives) 4 = 2 /\ tagRowsOf (setup twoFives) 4 = 1).
  { split; by vm_compute. }
  specialize (C2 4).
  assert (Hle : tagColsOf s 4 <= 9).
  { unfold tagColsOf. etrans; [apply length_filter|]. by rewrite length_seq. }
  lia.
Qed.

(** C8: for the grid with 5 in the cells [0,0] and [0,1] and all other
    cells empty, [solveBacktrack] returns false from the top-level call and
    the constructor ends in its failure outcome. *)
Theorem two_fives_unsolvable :
  (exists s1 s2, solveLogical enough (setup twoFives) = Some s1 /\
     solveBacktrack enough 0 0 s1 = Some (false, s2)) /\
  SudokuSolver twoFives = Some (Run (Exits 1) complaint).
Proof.
  destruct (SudokuSolver_cases twoFives) as (s1 & b & s2 & H1 & H2 & _ & ->).
  destruct b; [exfalso|split; [exists s1, s2; split; assumption|reflexivity]].
  destruct (solveLogical_fills _ _ _ H1) as (n1 & F1).
  assert (Hwf1 : wf s1) by (apply (fills_wf n1 (setup twoFives)); [done|apply setup_wf]).
  destruct (solveBacktrack_true enough 0 0 s1 s2 Hwf1 ltac:(lia) ltac:(lia) H2)
    as ((n2 & F2) & Hfull).
  apply (twoFives_no_completion (n1 + n2) s2).
  - exact (fills_trans n1 n2 _ s1 s2 F1 F2).
  - intros r c Hr Hc. apply Hfull; auto. unfold pos. lia.
Qed.

(** ** C3 *)

Lemma isLegal_checkValid s r c d : Spec.isLegal s r c d = checkValid s r c d.
Proof.
  unfold Spec.isLegal, checkValid.
  by destruct (get2 false (tagRow s) r (dig d)),
    (get2 false (tagCol s) (dig d) c),
    (get2 false (tagBlk s) (blk r c) (dig d)).
Qed.

(** The loop of the code and the guess case of the specification agree
    when the rest of the search does. *)
Lemma cleanTry_guess next rest r c vals e :
  wf e -> r < 9 -> c < 9 -> cell e r c = 0%Z ->
  Forall (fun d => (1 <= d <= 9)%Z) vals ->
  (forall s, wf s -> next s = Some (rest s)) ->
  (forall s s', wf s -> next s = Some (false, s') -> s' = s) ->
  cleanTry next r c vals e = Some (Spec.guess rest r c vals e).
Proof.
  intros Hwf Hr Hc He Hvals Hnext Hfail.
  induction Hvals as [|d vals Hd Hvals IH]; [done|].
  cbn [cleanTry Spec.guess]. rewrite isLegal_checkValid.
  destruct (checkValid e r c d) eqn:Hok; [|done].
  assert (Hwf' : wf (place e r c d)) by by apply wf_place.
  pose proof (Hnext _ Hwf') as Hn. rewrite Hn.
  destruct (rest (place e r c d)) as [[] s'] eqn:Hrest; [done|].
  apply Hfail in Hn as ->; [|done].
  unfold place at 1. rewrite resetTag_assignTag; try done.
  - rewrite setCell_setCell, setCell_same by done. done.
  - apply wf_setCell; auto; lia.
Qed.

Lemma colMajor_lookup n :
  n < 81 -> colMajor !! n = Some (n mod 9, n / 9).
Proof.
  intros Hn. unfold colMajor. rewrite list_lookup_fmap, lookup_seq_lt by done. done.
Qed.

Lemma colMajor_drop n :
  n < 81 -> drop n colMajor = (n mod 9, n / 9) :: drop (S n) colMajor.
Proof. intros Hn. apply drop_S. by apply colMajor_lookup. Qed.

Lemma solveBacktrack_search fuel : forall i j s,
  wf s -> i <= 9 -> j < 9 -> 82 <= fuel + pos i j ->
  solveBacktrack fuel i j s = Some (Spec.search (drop (pos i j) colMajor) s).
Proof.
  induction fuel as [|fuel IH]; intros i j s Hwf Hi Hj Hf.
  { unfold pos in Hf. lia. }
  rewrite solveBacktrack_unfold by done.
  case_decide as Hn.
  { rewrite Hn. by rewrite drop_ge. }
  destruct (pos_norm i j Hi Hj Hn) as (_ & _ & _ & Hi' & Hj' & Hp).
  assert (Hlt : pos i j < 81) by (unfold pos in *; lia).
  rewrite colMajor_drop by done. cbv zeta. cbn [Spec.search].
  set (i' := pos i j mod 9) in *. set (j' := pos i j / 9) in *.
  rewrite <- Hp.
  destruct (Z.ltb_spec 0 (cell s i' j')) as [Hc|Hc].
  - apply IH; auto with lia.
  - assert (Hnext : forall s1, wf s1 ->
      solveBacktrack fuel (S i') j' s1 =
        Some (Spec.search (drop (pos (S i') j') colMajor) s1)).
    { intros s1 Hs1. apply IH; auto with lia. }
    assert (Hfail : forall s1 s2, wf s1 ->
      solveBacktrack fuel (S i') j' s1 = Some (false, s2) -> s2 = s1).
    { intros s1 s2 Hs1. apply solveBacktrack_false; auto with lia. }
    rewrite tryVals_entry; auto using digits_range.
    apply cleanTry_guess; auto using digits_range.
    destruct Hwf as (_ & _ & _ & _ & Hv). specialize (Hv i' j' Hi' Hj'). lia.
Qed.

(** C3, as stated, fails: on the empty grid the search of the code and a
    depth-first search over the row-major traversal return different
    grids; the first fills column 0 with 1..9, the second row 0. *)
Lemma search_is_not_row_major :
  exists s s',
    solveBacktrack enough 0 0 (setup emptyMatrix) = Some (true, s) /\
    Spec.search rowMajor (setup emptyMatrix) = (true, s') /\
    cell s 1 0 = 2%Z /\ cell s 0 1 = 4%Z /\
    cell s' 1 0 = 4%Z /\ cell s' 0 1 = 2%Z.
Proof.
  assert (H : exists s, solveBacktrack enough 0 0 (setup emptyMatrix) = Some (true, s)).
  { vm_compute. eexists. reflexivity. }
  assert (H' : exists s', Spec.search rowMajor (setup emptyMatrix) = (true, s')).
  { vm_compute. eexists. reflexivity. }
  destruct H as [s H], H' as [s' H']. exists s, s'.
  assert (E : Some (true, s) = Some (true, s)) by reflexivity.
  rewrite <- H in E at 1. vm_compute in E. injection E as <-.
  assert (E' : (true, s') = (true, s')) by reflexivity.
  rewrite <- H' in E' at 1. vm_compute in E'. injection E' as <-.
  split_and!; by vm_compute.
Qed.

(** C3, amended: [solveBacktrack] is the depth-first search over the
    column-major traversal of the 81 cells, in which cell [r, c] has index
    c*9+r (down a column, then on to the next column), that tries the
    digits 1..9 in ascending order at each empty cell. *)
Theorem search_is_column_major s :
  wf s ->
  solveBacktrack enough 0 0 s = Some (Spec.search colMajor s) /\
  forall r c, r < 9 -> c < 9 -> colMajor !! (c * 9 + r) = Some (r, c).
Proof.
  intros Hwf. split.
  - assert (H0 : 0 <= 9) by lia. assert (H1 : 0 < 9) by lia.
    assert (H2 : 82 <= enough + pos 0 0) by (unfold enough, pos; lia).
    exact (solveBacktrack_search enough 0 0 s Hwf H0 H1 H2).
  - intros r c Hr Hc. rewrite colMajor_lookup by lia.
    destruct (pos_cell r c Hr) as [E1 E2]. unfold pos in E1, E2.
    replace (c * 9 + r) with (9 * c + r) by lia. by rewrite E1, E2.
Qed.

Lemma search_is_column_major_witness :
  solveBacktrack enough 0 0 (setup emptyMatrix) =
    Some (Spec.search colMajor (setup emptyMatrix)) /\
  colMajor !! 10 = Some (1, 1).
Proof.
  destruct (search_is_column_major (setup emptyMatrix) (setup_wf emptyMatrix)) as [H1 H2].
  split; [exact H1|]. apply (H2 1 1); lia.
Defined.

(** ** C6 and C7 *)

Lemma commit_quiet s l cells v0 :
  cnt v0 = 0 ->
  flagValueSet (commit l s (scan s l cells v0)).2 = false ->
  (commit l s (scan s l cells v0)).1 = s /\ flagValueSet v0 = false /\
  length (accepting s l cells) <> 1.
Proof.
  intros Hc. destruct (scan_spec s l cells v0) as (S1 & S2 & _); [lia|].
  unfold commit. destruct (Nat.eqb_spec (cnt (scan s l cells v0)) 1) as [E|E].
  - cbn [snd flagValueSet]. done.
  - cbn [fst snd]. intros Hf. split_and!; [done|congruence|lia].
Qed.

Lemma for_each_quiet {A} (Q : A -> solver -> Prop) (xs : list A)
    (body : A -> solver * locals -> solver * locals) : forall st,
  (forall x st0, x ∈ xs -> flagValueSet (body x st0).2 = false ->
     (body x st0).1 = st0.1 /\ flagValueSet st0.2 = false /\ Q x st0.1) ->
  flagValueSet (for_each xs body st).2 = false ->
  (for_each xs body st).1 = st.1 /\ flagValueSet st.2 = false /\
  forall x, x ∈ xs -> Q x st.1.
Proof.
  induction xs as [|x xs IH]; intros st Hstep Hf.
  { split_and!; [done|done|]. by intros x ?%elem_of_nil. }
  rewrite for_each_cons in *.
  destruct (IH (body x st)) as (I1 & I2 & I3); [|done|].
  { intros y st0 Hy. apply Hstep. by right. }
  destruct (Hstep x st) as (H1 & H2 & H3); [left|done|].
  split_and!; [congruence|done|].
  intros y [->|Hy]%elem_of_cons; [done|]. rewrite <- H1. by apply I3.
Qed.

Lemma scan_loops_quiet (step : nat -> Z -> solver * locals -> solver * locals)
    (cellsOf : nat -> list (nat * nat)) len st :
  (forall i l st0, flagValueSet (step i l st0).2 = false ->
     (step i l st0).1 = st0.1 /\ flagValueSet st0.2 = false /\
     length (accepting st0.1 l (cellsOf i)) <> 1) ->
  flagValueSet
    (for_each (seq 0 NUM) (fun i => for_each (seqZ 1 len) (fun l => step i l)) st).2 = false ->
  (for_each (seq 0 NUM) (fun i => for_each (seqZ 1 len) (fun l => step i l)) st).1 = st.1 /\
  flagValueSet st.2 = false /\
  forall i l, i < 9 -> (1 <= l <= len)%Z -> length (accepting st.1 l (cellsOf i)) <> 1.
Proof.
  intros Hstep Hf.
  destruct (for_each_quiet
    (fun i s => forall l, l ∈ seqZ 1 len -> length (accepting s l (cellsOf i)) <> 1)
    (seq 0 NUM) (fun i => for_each (seqZ 1 len) (fun l => step i l)) st)
    as (H1 & H2 & H3); [|done|].
  { intros i st0 _ Hf0.
    apply (for_each_quiet (fun l s => length (accepting s l (cellsOf i)) <> 1)
             (seqZ 1 len) (fun l => step i l) st0); [|done].
    intros l st1 _. apply Hstep. }
  split_and!; [done|done|].
  intros i l Hi Hl. apply H3; [apply elem_of_seq; unfold NUM; lia|].
  apply elem_of_seqZ. lia.
Qed.

Lemma blockStep_quiet k l st :
  flagValueSet (blockStep k l st).2 = false ->
  (blockStep k l st).1 = st.1 /\ flagValueSet st.2 = false /\
  length (accepting st.1 l (blockCells k)) <> 1.
Proof.
  destruct st as [s v]. rewrite blockStep_scan. intros Hf.
  match type of Hf with context [scan s l ?cs ?v0] =>
    destruct (commit_quiet s l cs v0 eq_refl Hf) as (H1 & H2 & H3)
  end.
  split_and!; [exact H1 | exact H2 | exact H3].
Qed.

Lemma columnStep_quiet i l st :
  flagValueSet (columnStep i l st).2 = false ->
  (columnStep i l st).1 = st.1 /\ flagValueSet st.2 = false /\
  length (accepting st.1 l (rowCells i)) <> 1.
Proof.
  destruct st as [s v]. rewrite columnStep_scan. intros Hf.
  match type of Hf with context [scan s l ?cs ?v0] =>
    destruct (commit_quiet s l cs v0 eq_refl Hf) as (H1 & H2 & H3)
  end.
  split_and!; [exact H1 | exact H2 | exact H3].
Qed.

Lemma rowStep_quiet i l st :
  flagValueSet (rowStep i l st).2 = false ->
  (rowStep i l st).1 = st.1 /\ flagValueSet st.2 = false /\
  length (accepting st.1 l (colCells i)) <> 1.
Proof.
  destruct st as [s v]. rewrite rowStep_scan. intros Hf.
  match type of Hf with context [scan s l ?cs ?v0] =>
    destruct (commit_quiet s l cs v0 eq_refl Hf) as (H1 & H2 & H3)
  end.
  split_and!; [exact H1 | exact H2 | exact H3].
Qed.

(** A turn of the loop that sets no value has changed nothing and has
    found no digit with exactly one place in a unit it looked at. *)
Lemma pass_quiet s v :
  flagValueSet (pass (s, v)).2 = false -> (pass (s, v)).1 = s /\ quiet 8 s.
Proof.
  rewrite pass_unfold.
  set (st0 := (s, Locals (row v) (col v) (cnt v) (flagNotSingle v) false)).
  intros Hf.
  destruct (scan_loops_quiet rowStep colCells _ _ rowStep_quiet Hf) as (R1 & R2 & R3).
  destruct (scan_loops_quiet columnStep rowCells _ _ columnStep_quiet R2) as (C1 & C2 & C3).
  destruct (scan_loops_quiet blockStep blockCells _ _ blockStep_quiet C2) as (B1 & _ & B3).
  change ((checkRows (checkColumns (checkBlocks st0))).1 =
          (checkColumns (checkBlocks st0)).1) in R1.
  change ((checkColumns (checkBlocks st0)).1 = (checkBlocks st0).1) in C1.
  change ((checkBlocks st0).1 = s) in B1.
  rewrite C1, B1 in R1, R3. rewrite B1 in C3. cbn [fst] in B3.
  split; [exact R1|].
  intros u Hu. split.
  - intros l Hl. apply B3; [done|]. unfold NUM. lia.
  - intros l Hl. split; [apply C3|apply R3]; unfold NUM; done || lia.
Qed.

Lemma logicalLoop_quiet fuel : forall st s',
  logicalLoop fuel st = Some s' -> quiet 8 s'.
Proof.
  induction fuel as [|fuel IH]; intros [s v] s'; [done|]. cbn [logicalLoop].
  destruct (flagValueSet (pass (s, v)).2) eqn:Hf; [apply IH|].
  intros [= <-]. destruct (pass_quiet s v Hf) as [-> Hq]. exact Hq.
Qed.

(** C6, as stated, fails: in the grid [nakedSingle] the empty cell [0,0]
    has 1 as its only candidate, and the logical pass returns without
    having filled it (it commits nothing there). *)
Lemma naked_single_left :
  solveLogical enough (setup nakedSingle) = Some (setup nakedSingle) /\
  cell (setup nakedSingle) 0 0 = 0%Z /\
  candidates (setup nakedSingle) 0 0 = [1%Z].
Proof. split_and!; by vm_compute. Qed.

(** C6, amended: when the logical pass returns, no unit it scans has a
    digit that exactly one empty cell of the unit accepts: that holds for
    every block with the digits 1..9 and for every row and every column
    with the digits 1..8. *)
Theorem logical_pass_fixpoint fuel s s' :
  solveLogical fuel s = Some s' -> quiet 8 s'.
Proof.
  intros Hrun. destruct fuel as [|fuel]; [done|].
  exact (logicalLoop_quiet (S fuel) (s, Locals 0 0 0 false false) s' Hrun).
Qed.

Lemma logical_pass_fixpoint_witness :
  solveLogical enough (setup nakedSingle) = Some (setup nakedSingle) /\
  quiet 8 (setup nakedSingle).
Proof.
  assert (H : solveLogical enough (setup nakedSingle) = Some (setup nakedSingle))
    by by vm_compute.
  split; [exact H|].
  exact (logical_pass_fixpoint enough (setup nakedSingle) (setup nakedSingle) H).
Defined.

(** C7 fails on the code: the second and the third scan run their digit
    loop with [l < NUM], so they examine 1..8 only.  In [lastOfRow] cell
    [0,8] is the one empty cell of row 0 that accepts 9; the logical pass
    returns with the cell still empty, while the body of the second scan
    run with 9 on row 0 would have written the 9. *)
Theorem scans_stop_at_eight :
  seqZ 1 (Z.of_nat NUM - 1) = [1; 2; 3; 4; 5; 6; 7; 8]%Z /\
  solveLogical enough (setup lastOfRow) = Some (setup lastOfRow) /\
  accepting (setup lastOfRow) 9 (rowCells 0) = [(0, 8)] /\
  cell (setup lastOfRow) 0 8 = 0%Z /\
  cell (columnStep 0 9 (setup lastOfRow, Locals 0 0 0 false false)).1 0 8 = 9%Z.
Proof. split_and!; by vm_compute. Qed.

(** * Further properties *)

(** ** What the tags mean *)

Lemma place_tables s i j v :
  (1 <= v <= 9)%Z ->
  tagRow (place s i j v) = set2 (tagRow s) i (dig v) true /\
  tagCol (place s i j v) = set2 (tagCol s) (dig v) j true /\
  tagBlk (place s i j v) = set2 (tagBlk s) (blk i j) (dig v) true.
Proof. intros Hv. unfold place, assignTag. destruct (Z.eqb_spec v 0); [lia|done]. Qed.

Lemma place_exact s i j v :
  tagsExact s -> i < 9 -> j < 9 -> (1 <= v <= 9)%Z -> (cell s i j <= 0)%Z ->
  tagsExact (place s i j v).
Proof.
  intros (Hwf & Hset & Hr & Hc & Hb) Hi Hj Hv Hempty.
  pose proof Hwf as (Hm & Htr & Htc & Htb & _).
  pose proof (dig_lt v Hv) as Hd. pose proof (blk_lt i j Hi Hj) as Hk.
  assert (Hcell : forall r c, cell (place s i j v) r c =
            if decide ((r, c) = (i, j)) then v else cell s r c).
  { intros. by apply cell_place. }
  assert (Hold : forall r c, (0 < cell s r c)%Z -> cell (place s i j v) r c = cell s r c).
  { intros r c Hpos. rewrite Hcell. case_decide as E; [|done].
    injection E as -> ->. lia. }
  assert (Hnew : cell (place s i j v) i j = v).
  { rewrite Hcell. by rewrite decide_True. }
  destruct (place_tables s i j v Hv) as (Er & Ec & Eb).
  split_and!.
  - by apply wf_place.
  - intros r c Hr' Hc'. rewrite Hcell, Er, Ec, Eb. case_decide as E.
    + injection E as -> ->. intros _. split_and!; by apply get2_set2_eq.
    + intros Hpos. destruct (Hset r c Hr' Hc' Hpos) as (T1 & T2 & T3).
      split_and!; by apply get2_set2_keep.
  - unfold tagsOnly. rewrite Er, Ec, Eb. split_and!.
    + intros r k. rewrite get2_set2 by done. case_decide as E.
      * injection E as -> ->. intros _. exists j. rewrite Hnew. split_and!; done || lia.
      * intros (c & Hc' & Hpos & Hk')%Hr. exists c. rewrite Hold by done. done.
    + intros k c. rewrite get2_set2 by done. case_decide as E.
      * injection E as -> ->. intros _. exists i. rewrite Hnew. split_and!; done || lia.
      * intros (r & Hr' & Hpos & Hk')%Hc. exists r. rewrite Hold by done. done.
    + intros b k. rewrite get2_set2 by done. case_decide as E.
      * injection E as -> ->. intros _. exists i, j. rewrite Hnew. split_and!; done || lia.
      * intros (r & c & Hr' & Hc' & Hb' & Hpos & Hk')%Hb. exists r, c.
        rewrite Hold by done. done.
Qed.

Lemma fills_exact n s s' : fills n s s' -> tagsExact s -> tagsExact s'.
Proof. induction 1; auto using place_exact. Qed.

Lemma tagStep_only p s :
  wf s -> p ∈ rowMajor -> tagsOnly s -> tagsOnly (tagStep p s).
Proof.
  intros Hwf [Hi Hj]%rowMajor_range (Hr & Hc & Hb). destruct p as [i j].
  cbn [fst snd] in *. unfold tagStep. cbn [fst snd].
  pose proof Hwf as (Hm & Htr & Htc & Htb & Hv). specialize (Hv i j Hi Hj).
  pose proof (blk_lt i j Hi Hj) as Hk.
  unfold assignTag. destruct (Z.eqb_spec (cell s i j) 0) as [E0|E0]; [done|].
  assert (Hd : dig (cell s i j) < 9) by (apply dig_lt; lia).
  assert (Hpos : (0 < cell s i j)%Z) by lia.
  unfold tagsOnly. split_and!; cbn [tagRow tagCol tagBlk].
  - intros r k. rewrite get2_set2 by done. case_decide as E; [|apply Hr].
    injection E as -> ->. intros _. by exists j.
  - intros k c. rewrite get2_set2 by done. case_decide as E; [|apply Hc].
    injection E as -> ->. intros _. by exists i.
  - intros b k. rewrite get2_set2 by done. case_decide as E; [|apply Hb].
    injection E as -> ->. intros _. by exists i, j.
Qed.

Lemma readStep_tables m L s :
  tagRow (for_each L (readStep m) s) = tagRow s /\
  tagCol (for_each L (readStep m) s) = tagCol s /\
  tagBlk (for_each L (readStep m) s) = tagBlk s.
Proof.
  apply (for_each_inv (fun st =>
    tagRow st = tagRow s /\ tagCol st = tagCol s /\ tagBlk st = tagBlk s)); [done|].
  intros p st _ H. rewrite readStep_given. by case_decide.
Qed.

Lemma get2_replicate_false a b :
  get2 false (replicate NUM (replicate NUM false)) a b = false.
Proof.
  unfold get2.
  destruct (replicate NUM (replicate NUM false) !! a) as [r|] eqn:E; [|done].
  apply lookup_replicate in E as [-> _].
  destruct (replicate NUM false !! b) as [x|] eqn:E; [|done].
  by apply lookup_replicate in E as [-> _].
Qed.

Lemma setup_exact m : tagsExact (setup m).
Proof.
  split_and!; [apply setup_wf| |].
  - rewrite setup_eq. apply tagStep_tagsSet, readStep_wf, wf_initial.
  - rewrite setup_eq.
    set (s0 := for_each rowMajor (readStep m) (initPuzzle (initTag (Solver [] [] [] [])))).
    assert (Hwf0 : wf s0) by apply readStep_wf, wf_initial.
    assert (H : wf (for_each rowMajor tagStep s0) /\ tagsOnly (for_each rowMajor tagStep s0)).
    { apply (for_each_inv (fun st => wf st /\ tagsOnly st)).
      - split; [done|].
        destruct (readStep_tables m rowMajor (initPuzzle (initTag (Solver [] [] [] []))))
          as (Er & Ec & Eb).
        unfold tagsOnly. fold s0 in Er, Ec, Eb. rewrite Er, Ec, Eb.
        cbn [initPuzzle initTag tagRow tagCol tagBlk].
        split_and!; intros a b; by rewrite get2_replicate_false.
      - intros p st Hp [Hwf Honly]. split; [by apply wf_assignTag|by apply tagStep_only]. }
    apply H.
Qed.

Lemma sameUnit_self i j : sameUnit i j i j.
Proof. by left. Qed.

Lemma checkValid_absent s i j d :
  tagsExact s -> i < 9 -> j < 9 -> (1 <= d <= 9)%Z ->
  checkValid s i j d = true <->
  forall r c, r < 9 -> c < 9 -> sameUnit i j r c -> cell s r c <> d.
Proof.
  intros (Hwf & Hset & Hr & Hc & Hb) Hi Hj Hd. rewrite checkValid_true. split.
  - intros (V1 & V2 & V3) r c Hr' Hc' Hunit Heq.
    destruct (Hset r c Hr' Hc') as (T1 & T2 & T3); [lia|].
    rewrite Heq in T1, T2, T3. destruct Hunit as [->|[->|E]]; [congruence|congruence|].
    rewrite E in T3. congruence.
  - intros Habs.
    assert (Hdig : forall r c, r < 9 -> c < 9 -> (0 < cell s r c)%Z ->
              dig (cell s r c) = dig d -> cell s r c = d).
    { intros r c _ _ Hpos E. unfold dig in E. lia. }
    split_and!; apply not_true_is_false.
    + intros (c & Hc' & Hpos & E)%Hr. apply (Habs i c); auto. by left.
    + intros (r & Hr' & Hpos & E)%Hc. apply (Habs r j); auto. right. by left.
    + intros (r & c & Hr' & Hc' & Hb' & Hpos & E)%Hb. apply (Habs r c); auto.
      right. by right.
Qed.

(** ** Solved grids *)

Lemma cell_units r c :
  r < 9 -> c < 9 ->
  (r, c) ∈ rowCells r /\ (r, c) ∈ colCells c /\ (r, c) ∈ blockCells (blk r c).
Proof.
  intros Hr Hc. split_and!.
  - unfold rowCells. apply list_elem_of_fmap. exists c. split; [done|]. apply elem_of_seq. lia.
  - unfold colCells. apply list_elem_of_fmap. exists r. split; [done|]. apply elem_of_seq. lia.
  - cases9 r; cases9 c; by_computation.
Qed.

Lemma length_two {A} (l : list A) x y :
  NoDup l -> x ∈ l -> y ∈ l -> x <> y -> 2 <= length l.
Proof.
  intros Hnd Hx Hy Hne. destruct l as [|a [|b l]]; simpl; [|exfalso|lia].
  - by apply elem_of_nil in Hx.
  - apply list_elem_of_singleton in Hx, Hy. congruence.
Qed.

Lemma occurrences_two g cells p q d :
  NoDup cells -> p ∈ cells -> q ∈ cells -> p <> q ->
  get2 0%Z g p.1 p.2 = d -> get2 0%Z g q.1 q.2 = d ->
  2 <= occurrences g cells d.
Proof.
  intros Hnd Hp Hq Hne Ep Eq. unfold occurrences.
  apply (length_two _ p q); [by apply NoDup_filter| | |done];
    by apply list_elem_of_filter.
Qed.

Lemma solved_range g r c :
  solved g -> r < 9 -> c < 9 -> (1 <= get2 0 g r c <= 9)%Z.
Proof. intros [H _]. apply H. Qed.

Lemma solved_noClash g : solved g -> noClash g.
Proof.
  intros [Hrange Hunits] r c r' c' Hr Hc Hr' Hc' Hne _ Heq.
  pose proof (Hrange r c Hr Hc) as Hd.
  destruct (cell_units r c Hr Hc) as (R & C & B).
  destruct (cell_units r' c' Hr' Hc') as (R' & C' & B').
  split_and!.
  - intros E. subst r'. destruct (Hunits r (get2 0%Z g r c) Hr Hd) as (O & _ & _).
    destruct (units_ok r Hr) as ((_ & Hnd & _) & _ & _).
    pose proof (occurrences_two g _ (r, c) (r, c') _ Hnd R R' Hne eq_refl (eq_sym Heq)) as H2.
    cbn [fst snd] in H2. lia.
  - intros E. subst c'. destruct (Hunits c (get2 0%Z g r c) Hc Hd) as (_ & O & _).
    destruct (units_ok c Hc) as (_ & (_ & Hnd & _) & _).
    pose proof (occurrences_two g _ (r, c) (r', c) _ Hnd C C' Hne eq_refl (eq_sym Heq)) as H2.
    cbn [fst snd] in H2. lia.
  - intros E. pose proof (blk_lt r c Hr Hc) as Hb.
    destruct (Hunits (blk r c) (get2 0%Z g r c) Hb Hd) as (_ & _ & O).
    destruct (units_ok (blk r c) Hb) as (_ & _ & (_ & Hnd & _)).
    rewrite <- E in B'.
    pose proof (occurrences_two g _ (r, c) (r', c') _ Hnd B B' Hne eq_refl (eq_sym Heq)) as H2.
    cbn [fst snd] in H2. lia.
Qed.

(** In a solved grid every digit stands somewhere in every unit. *)
Lemma occurrences_elem g cells d :
  occurrences g cells d = 1 -> exists p, p ∈ cells /\ get2 0%Z g p.1 p.2 = d.
Proof.
  unfold occurrences. intros H.
  destruct (filter _ cells) as [|p l] eqn:E; [done|].
  assert (Hp : p ∈ filter (fun p : nat * nat => get2 0%Z g p.1 p.2 = d) cells).
  { rewrite E. left. }
  apply list_elem_of_filter in Hp as [? ?]. by exists p.
Qed.

(** ** Grids that keep the filled cells *)

(** The digit that a solved grid holds in an empty cell is accepted there,
    and the grid keeps the cells after that digit is placed. *)
Lemma keeps_accepts s g i j :
  tagsExact s -> solved g -> keeps s g -> i < 9 -> j < 9 -> (cell s i j <= 0)%Z ->
  checkValid s i j (get2 0%Z g i j) = true /\
  keeps (place s i j (get2 0%Z g i j)) g.
Proof.
  intros Hex Hsol Hkeeps Hi Hj Hempty.
  pose proof (solved_range g i j Hsol Hi Hj) as Hd.
  pose proof (solved_noClash g Hsol) as Hclash.
  split.
  - apply checkValid_absent; try done.
    intros r c Hr Hc Hunit Heq.
    assert (Hpos : (0 < cell s r c)%Z) by lia.
    assert (Hne : (r, c) <> (i, j)) by (intros [= -> ->]; lia).
    pose proof (Hkeeps r c Hr Hc Hpos) as Hg.
    destruct (Hclash r c i j) as (N1 & N2 & N3); auto; [lia|congruence|].
    destruct Hunit as [?|[?|?]]; done.
  - intros r c Hr Hc. rewrite cell_place by (done || apply Hex).
    case_decide as E; [by injection E as -> ->|]. by apply Hkeeps.
Qed.

(** ** The search is complete and finds the least solution *)

Lemma cleanTry_false_all next i j vals e s' :
  cleanTry next i j vals e = Some (false, s') ->
  forall val, val ∈ vals -> checkValid e i j val = true ->
    exists s'', next (place e i j val) = Some (false, s'').
Proof.
  induction vals as [|v vals IH]; cbn [cleanTry]; intros H val Hin Hok.
  { by apply elem_of_nil in Hin. }
  apply elem_of_cons in Hin as [->|Hin].
  - rewrite Hok in H. destruct (next (place e i j v)) as [[[] s1]|]; try done. by exists s1.
  - destruct (checkValid e i j v); [|by apply IH].
    destruct (next (place e i j v)) as [[[] s1]|]; try done. by apply IH.
Qed.

Lemma cleanTry_least next i j vals e s' :
  StronglySorted Z.lt vals ->
  cleanTry next i j vals e = Some (true, s') ->
  exists val, val ∈ vals /\ checkValid e i j val = true /\
    next (place e i j val) = Some (true, s') /\
    forall v, v ∈ vals -> (v < val)%Z -> checkValid e i j v = true ->
      exists s'', next (place e i j v) = Some (false, s'').
Proof.
  induction 1 as [|v vals Hsorted IH Hall]; cbn [cleanTry]; [done|].
  rewrite Forall_forall in Hall.
  destruct (checkValid e i j v) eqn:Hok.
  - destruct (next (place e i j v)) as [[[] s1]|] eqn:Hn; try done.
    + intros [= <-]. exists v. split_and!; [left|done|done|].
      intros w [->|Hw]%elem_of_cons Hlt _; [lia|].
      apply Hall in Hw. lia.
    + intros (val & Hin & Hval & Hrun & Hless)%IH.
      exists val. split_and!; [by right|done|done|].
      intros w [->|Hw]%elem_of_cons Hlt Hw'; [by exists s1|by apply Hless].
  - intros (val & Hin & Hval & Hrun & Hless)%IH.
    exists val. split_and!; [by right|done|done|].
    intros w [->|Hw]%elem_of_cons Hlt Hw'; [congruence|by apply Hless].
Qed.

Lemma digits_sorted : StronglySorted Z.lt (seqZ 1 9).
Proof.
  change (seqZ 1 9) with [1; 2; 3; 4; 5; 6; 7; 8; 9]%Z.
  repeat (constructor; [|repeat constructor; lia]). constructor.
Qed.

(** A state that a solved grid keeps is never given up by the search. *)
Lemma solveBacktrack_complete fuel : forall i j s g s',
  tagsExact s -> solved g -> keeps s g -> i <= 9 -> j < 9 ->
  solveBacktrack fuel i j s = Some (false, s') -> False.
Proof.
  induction fuel as [|fuel IH]; intros i j s g s' Hex Hsol Hkeeps Hi Hj.
  { rewrite (eq_refl : solveBacktrack 0 i j s = None). done. }
  rewrite solveBacktrack_unfold by done.
  case_decide as Hn; [done|].
  destruct (pos_norm i j Hi Hj Hn) as (_ & _ & _ & Hi' & Hj' & _). cbv zeta.
  set (i' := pos i j mod 9) in *. set (j' := pos i j / 9) in *.
  destruct (Z.ltb_spec 0 (cell s i' j')) as [Hc|Hc].
  - apply (IH (S i') j' s g s'); auto with lia.
  - assert (Hwf : wf s) by apply Hex.
    rewrite tryVals_entry; auto using digits_range.
    2:{ intros s1 s2 Hs1. apply solveBacktrack_false; auto with lia. }
    intros Hfail.
    destruct (keeps_accepts s g i' j' Hex Hsol Hkeeps Hi' Hj' Hc) as [Hok Hkeeps'].
    pose proof (solved_range g i' j' Hsol Hi' Hj') as Hd.
    destruct (cleanTry_false_all _ _ _ _ _ _ Hfail (get2 0%Z g i' j')) as [s'' Hrun];
      [by apply seqZ_digits|done|].
    apply (IH (S i') j' (place s i' j' (get2 0%Z g i' j')) g s''); auto with lia.
    by apply place_exact.
Qed.

Lemma reading_cons g p cells :
  reading g (p :: cells) = get2 0%Z g p.1 p.2 :: reading g cells.
Proof. done. Qed.

(** The grid that the search returns comes first, in the order of the
    traversal, among the solved grids that keep the state. *)
Lemma solveBacktrack_least fuel : forall i j s g s',
  tagsExact s -> solved g -> keeps s g -> i <= 9 -> j < 9 ->
  solveBacktrack fuel i j s = Some (true, s') ->
  lexLe (reading (problemMatrix s') (drop (pos i j) colMajor))
        (reading g (drop (pos i j) colMajor)).
Proof.
  induction fuel as [|fuel IH]; intros i j s g s' Hex Hsol Hkeeps Hi Hj.
  { rewrite (eq_refl : solveBacktrack 0 i j s = None). done. }
  intros Hrun. pose proof Hrun as Hrun0. revert Hrun.
  rewrite solveBacktrack_unfold by done.
  case_decide as Hn.
  { intros _. rewrite Hn. by rewrite drop_ge. }
  destruct (pos_norm i j Hi Hj Hn) as (_ & _ & _ & Hi' & Hj' & Hp).
  assert (Hlt : pos i j < 81) by (unfold pos in *; lia).
  rewrite colMajor_drop by done. cbv zeta. rewrite !reading_cons. cbn [fst snd lexLe].
  set (i' := pos i j mod 9) in *. set (j' := pos i j / 9) in *.
  rewrite <- Hp. assert (Hwf : wf s) by apply Hex.
  destruct (Z.ltb_spec 0 (cell s i' j')) as [Hc|Hc].
  - intros Hrun. right. split; [|by apply (IH (S i') j' s g s'); auto with lia].
    destruct (solveBacktrack_true fuel (S i') j' s s') as [[n Hn'] _]; auto with lia.
    rewrite <- cell_get2, (fills_keep n s s'), (Hkeeps i' j') by done. done.
  - rewrite tryVals_entry; auto using digits_range.
    2:{ intros s1 s2 Hs1. apply solveBacktrack_false; auto with lia. }
    intros (val & Hval%seqZ_digits & Hok & Hrun & Hless)%(cleanTry_least _ _ _ _ _ _ digits_sorted).
    assert (Hex' : tagsExact (place s i' j' val)) by by apply place_exact.
    destruct (solveBacktrack_true fuel (S i') j' (place s i' j' val) s') as [[n Hn'] _];
      auto with lia; [apply Hex'|].
    assert (Ecell : cell s' i' j' = val).
    { rewrite (fills_keep n (place s i' j' val) s'); [| done | apply Hex' |];
        rewrite cell_place by (done || apply Hwf); rewrite decide_True by done; lia || done. }
    rewrite <- cell_get2, Ecell.
    destruct (keeps_accepts s g i' j' Hex Hsol Hkeeps Hi' Hj' Hc) as [Hokg Hkeeps'].
    pose proof (solved_range g i' j' Hsol Hi' Hj') as Hd.
    destruct (Z.lt_trichotomy val (get2 0%Z g i' j')) as [Hlt'|[Heq|Hgt]].
    + by left.
    + right. split; [done|]. rewrite <- Heq in Hkeeps'.
      apply (IH (S i') j' (place s i' j' val) g s'); auto with lia.
    + exfalso. destruct (Hless (get2 0%Z g i' j')) as [s'' Hfail]; auto.
      { by apply seqZ_digits. }
      apply (solveBacktrack_complete fuel (S i') j'
               (place s i' j' (get2 0%Z g i' j')) g s''); auto with lia.
      by apply place_exact.
Qed.

(** ** What the logical pass commits is forced *)

Lemma singleton_elems {A} (l : list A) x y :
  length l = 1 -> x ∈ l -> y ∈ l -> x = y.
Proof.
  destruct l as [|a [|b l]]; try done.
  intros _ Hx%list_elem_of_singleton Hy%list_elem_of_singleton. congruence.
Qed.

Lemma commit_keeps s l cells v0 g :
  tagsExact s -> solved g -> keeps s g ->
  unitOk cells -> occurrences g cells l = 1 -> (1 <= l <= 9)%Z -> cnt v0 = 0 ->
  tagsExact (commit l s (scan s l cells v0)).1 /\
  keeps (commit l s (scan s l cells v0)).1 g.
Proof.
  intros Hex Hsol Hkeeps (_ & _ & Hrange & Hunit) Hocc Hl Hc.
  rewrite Forall_forall in Hrange. rewrite Forall_forall in Hunit.
  destruct (scan_spec s l cells v0) as (S1 & _ & _); [lia|].
  unfold commit. destruct (Nat.eqb_spec (cnt (scan s l cells v0)) 1) as [E|E]; [|done].
  cbn [fst].
  assert (Hfound := scan_found s l cells v0 Hc ltac:(lia)).
  set (p := (row (scan s l cells v0), col (scan s l cells v0))) in *.
  assert (Hlen : length (accepting s l cells) = 1) by lia.
  pose proof Hfound as (Hp & Hpe & Hpok)%accepting_elem.
  destruct (Hrange p Hp) as [Hpr Hpc].
  destruct (occurrences_elem g cells l Hocc) as (q & Hq & Hgq).
  destruct (Hrange q Hq) as [Hqr Hqc].
  assert (Hqe : (cell s q.1 q.2 <= 0)%Z).
  { destruct (Z.le_gt_cases (cell s q.1 q.2) 0) as [|Hpos]; [done|]. exfalso.
    pose proof (Hkeeps q.1 q.2 Hqr Hqc ltac:(lia)) as Hk.
    pose proof (proj1 (checkValid_absent s p.1 p.2 l Hex Hpr Hpc Hl) Hpok) as Habs.
    apply (Habs q.1 q.2); [done|done| |congruence].
    pose proof (Hunit p Hp) as Hrow. rewrite Forall_forall in Hrow.
    specialize (Hrow q Hq). unfold sameUnit. intuition congruence. }
  destruct (keeps_accepts s g q.1 q.2 Hex Hsol Hkeeps Hqr Hqc Hqe) as [Hqok Hkeeps'].
  rewrite Hgq in Hqok, Hkeeps'.
  assert (Hqa : q ∈ accepting s l cells) by by apply accepting_elem.
  assert (Epq : p = q) by by apply (singleton_elems (accepting s l cells)).
  fold (place s (row (scan s l cells v0)) (col (scan s l cells v0)) l).
  change (row (scan s l cells v0)) with p.1. change (col (scan s l cells v0)) with p.2.
  rewrite Epq. split; [by apply place_exact|done].
Qed.

Section Forced.
Context (g : list (list Z)) (Hsol : solved g).

Let good (st : solver * locals) : Prop := tagsExact st.1 /\ keeps st.1 g.

Lemma blockStep_keeps k l st :
  k < 9 -> (1 <= l <= 9)%Z -> good st -> good (blockStep k l st).
Proof.
  intros Hk Hl [Hex Hkeeps]. destruct st as [s v]. rewrite blockStep_scan.
  destruct (units_ok k Hk) as (_ & _ & U). destruct Hsol as [_ Hunits].
  destruct (Hunits k l Hk Hl) as (_ & _ & O).
  by apply commit_keeps.
Qed.

Lemma columnStep_keeps i l st :
  i < 9 -> (1 <= l <= 9)%Z -> good st -> good (columnStep i l st).
Proof.
  intros Hi Hl [Hex Hkeeps]. destruct st as [s v]. rewrite columnStep_scan.
  destruct (units_ok i Hi) as (U & _ & _). destruct Hsol as [_ Hunits].
  destruct (Hunits i l Hi Hl) as (O & _ & _).
  by apply commit_keeps.
Qed.

Lemma rowStep_keeps i l st :
  i < 9 -> (1 <= l <= 9)%Z -> good st -> good (rowStep i l st).
Proof.
  intros Hi Hl [Hex Hkeeps]. destruct st as [s v]. rewrite rowStep_scan.
  destruct (units_ok i Hi) as (_ & U & _). destruct Hsol as [_ Hunits].
  destruct (Hunits i l Hi Hl) as (_ & O & _).
  by apply commit_keeps.
Qed.

Lemma scan_loops_keeps (step : nat -> Z -> solver * locals -> solver * locals) len st :
  (1 <= len <= 9)%Z ->
  (forall i l st', i < 9 -> (1 <= l <= 9)%Z -> good st' -> good (step i l st')) ->
  good st ->
  good (for_each (seq 0 NUM) (fun i => for_each (seqZ 1 len) (fun l => step i l)) st).
Proof.
  intros Hlen Hstep Hst. apply for_each_inv; [done|].
  intros i st1 Hi%elem_of_seq H1. apply for_each_inv; [done|].
  intros l st2 Hl%elem_of_seqZ H2. apply Hstep; unfold NUM in *; done || lia.
Qed.

Lemma pass_keeps s v : good (s, v) -> good (pass (s, v)).
Proof.
  intros H. rewrite pass_unfold.
  apply (scan_loops_keeps rowStep); [by vm_compute | apply rowStep_keeps |].
  apply (scan_loops_keeps columnStep); [by vm_compute | apply columnStep_keeps |].
  apply (scan_loops_keeps blockStep); [by vm_compute | apply blockStep_keeps |].
  exact H.
Qed.

Lemma logicalLoop_keeps fuel : forall st s',
  good st -> logicalLoop fuel st = Some s' -> tagsExact s' /\ keeps s' g.
Proof.
  induction fuel as [|fuel IH]; intros [s v] s' Hst; [done|]. cbn [logicalLoop].
  pose proof (pass_keeps s v Hst) as Hpass.
  destruct (flagValueSet (pass (s, v)).2); [by apply IH|].
  intros [= <-]. exact Hpass.
Qed.
End Forced.

Lemma solveLogical_keeps g fuel s s' :
  solved g -> tagsExact s -> keeps s g ->
  solveLogical fuel s = Some s' -> tagsExact s' /\ keeps s' g.
Proof.
  intros Hsol Hex Hkeeps Hrun. destruct fuel as [|fuel].
  { rewrite (eq_refl : solveLogical 0 s = None) in Hrun. done. }
  rewrite (eq_refl : solveLogical (S fuel) s =
             logicalLoop (S fuel) (s, Locals 0 0 0 false false)) in Hrun.
  by apply (logicalLoop_keeps g Hsol (S fuel) (s, Locals 0 0 0 false false)).
Qed.

Lemma solution_keeps m g : solution m g -> keeps (setup m) g.
Proof.
  intros [_ Hgiven] r c Hr Hc. rewrite setup_cell by done. by apply Hgiven.
Qed.

(** ** Grids written out *)

Lemma colMajor_bounds p : p ∈ colMajor -> p.1 < 9 /\ p.2 < 9.
Proof.
  unfold colMajor. intros (n & -> & Hn%elem_of_seq)%list_elem_of_fmap. cbn [fst snd].
  split; [apply Nat.mod_upper_bound | apply Nat.Div0.div_lt_upper_bound]; lia.
Qed.

Lemma forallb_cells (f : nat * nat -> bool) r c :
  forallb f colMajor = true -> r < 9 -> c < 9 -> f (r, c) = true.
Proof.
  rewrite forallb_forall. intros H Hr Hc. apply H, list_elem_of_In.
  by apply colMajor_all.
Qed.

Lemma solvedb_sound g : solvedb g = true -> solved g.
Proof.
  unfold solvedb. intros [Hrange Hunits]%andb_true_iff. split.
  - intros r c Hr Hc. pose proof (forallb_cells _ r c Hrange Hr Hc) as H.
    cbn [fst snd] in H. lia.
  - intros u d Hu Hd. rewrite forallb_forall in Hunits.
    specialize (Hunits u). rewrite <- list_elem_of_In, elem_of_seq in Hunits.
    specialize (Hunits ltac:(lia)). rewrite forallb_forall in Hunits.
    specialize (Hunits d). rewrite <- list_elem_of_In, seqZ_digits in Hunits.
    specialize (Hunits Hd).
    apply andb_true_iff in Hunits as [[H1 H2]%andb_true_iff H3].
    apply Nat.eqb_eq in H1, H2, H3. done.
Qed.

Lemma solutionb_sound m g : solutionb m g = true -> solution m g.
Proof.
  unfold solutionb. intros [Hsol Hgiven]%andb_true_iff. split; [by apply solvedb_sound|].
  intros r c Hr Hc Hpos. pose proof (forallb_cells _ r c Hgiven Hr Hc) as H.
  cbn [fst snd] in H. apply Z.ltb_lt in Hpos. rewrite Hpos in H. simpl in H. lia.
Qed.

Lemma shape9_ext {A} (d : A) (m1 m2 : list (list A)) :
  shape9 m1 -> shape9 m2 ->
  (forall r c, r < 9 -> c < 9 -> get2 d m1 r c = get2 d m2 r c) -> m1 = m2.
Proof.
  intros [L1 R1] [L2 R2] H. apply list_eq. intros i.
  destruct (decide (i < 9)) as [Hi|Hi].
  2:{ rewrite !(proj2 (lookup_ge_None _ _)) by lia. done. }
  destruct (m1 !! i) as [r1|] eqn:E1; [|apply lookup_ge_None in E1; lia].
  destruct (m2 !! i) as [r2|] eqn:E2; [|apply lookup_ge_None in E2; lia].
  f_equal. apply list_eq. intros j.
  pose proof (R1 _ _ E1) as Hl1. pose proof (R2 _ _ E2) as Hl2.
  destruct (decide (j < 9)) as [Hj|Hj].
  2:{ rewrite !(proj2 (lookup_ge_None _ _)) by lia. done. }
  specialize (H i j Hi Hj). unfold get2 in H. rewrite E1, E2 in H.
  destruct (r1 !! j) as [x1|] eqn:F1; [|apply lookup_ge_None in F1; lia].
  destruct (r2 !! j) as [x2|] eqn:F2; [|apply lookup_ge_None in F2; lia].
  by rewrite H.
Qed.

(** ** The constructor and the solutions of a puzzle *)

Lemma for_each_ext {A St} (xs : list A) (body body' : A -> St -> St) (st : St) :
  (forall x st', x ∈ xs -> body x st' = body' x st') ->
  for_each xs body st = for_each xs body' st.
Proof.
  revert st. induction xs as [|x xs IH]; intros st H; [done|].
  rewrite !for_each_cons, (H x st) by left. apply IH. intros y st' Hy. apply H. by right.
Qed.

Lemma setup_given m m' :
  (forall r c, r < 9 -> c < 9 -> given (get2 0%Z m r c) = given (get2 0%Z m' r c)) ->
  setup m = setup m'.
Proof.
  intros H. rewrite !setup_eq. f_equal. apply for_each_ext.
  intros p st [Hr Hc]%rowMajor_range. rewrite !readStep_given. by rewrite (H p.1 p.2).
Qed.

Lemma writeBack_eq s m : shape9 m -> wf s -> writeBack s m = problemMatrix s.
Proof.
  intros Hm Hwf. apply (shape9_ext 0%Z).
  - rewrite writeBack_cells. by apply (writeStep_cells s rowMajor m 0 0 Hm).
  - apply Hwf.
  - intros r c Hr Hc. rewrite writeBack_cell by done. apply cell_get2.
Qed.

(** The run of the constructor, told by the state that [setup] builds. *)
Lemma SudokuSolver_result m :
  shape9 m ->
  exists n1 s1 b s2,
    fills n1 (setup m) s1 /\
    solveLogical enough (setup m) = Some s1 /\
    solveBacktrack enough 0 0 s1 = Some (b, s2) /\ wf s2 /\
    SudokuSolver m =
      Some (if b then Run (Returns (problemMatrix s2)) [] else Run (Exits 1) complaint).
Proof.
  intros Hm. destruct (SudokuSolver_cases m) as (s1 & b & s2 & H1 & H2 & _ & Hrun).
  destruct (solveLogical_fills _ _ _ H1) as (n1 & F1).
  assert (Hwf1 : wf s1) by (apply (fills_wf n1 (setup m)); [done|apply setup_wf]).
  assert (Hwf2 : wf s2).
  { destruct b.
    - destruct (solveBacktrack_true enough 0 0 s1 s2 Hwf1 ltac:(lia) ltac:(lia) H2)
        as ((n2 & F2) & _).
      by apply (fills_wf n2 s1).
    - by rewrite (solveBacktrack_false enough 0 0 s1 s2 Hwf1 ltac:(lia) ltac:(lia) H2). }
  exists n1, s1, b, s2. split_and!; try assumption.
  rewrite Hrun. destruct b; [|reflexivity]. by rewrite writeBack_eq.
Qed.

Lemma solution_validGivens m g : solution m g -> validGivens m.
Proof.
  intros [Hsol Hgiven] r c r' c' Hr Hc Hr' Hc' Hne Hpos Heq.
  apply (solved_noClash g Hsol r c r' c'); auto.
  - rewrite Hgiven by done. done.
  - rewrite !Hgiven by (done || lia). done.
Qed.

Lemma SudokuSolver_sound m out cs :
  shape9 m -> validGivens m ->
  SudokuSolver m = Some (Run (Returns out) cs) -> solution m out.
Proof.
  intros Hm Hvalid Hrun.
  destruct (SudokuSolver_returns m out cs Hm Hrun) as (n & s & Hfills & Hfull & Hout).
  split.
  - apply (solved_of_inv s); [|done|done].
    apply (fills_inv n (setup m)); [done|]. by apply setup_inv.
  - intros r c Hr Hc Hpos. rewrite Hout by done. rewrite <- setup_cell by done.
    apply (fills_keep n (setup m)); [done|apply setup_wf|]. by rewrite setup_cell.
Qed.

Lemma run_of_solution m g :
  shape9 m -> solution m g ->
  exists s, wf s /\
    SudokuSolver m = Some (Run (Returns (problemMatrix s)) []) /\
    lexLe (reading (problemMatrix s) colMajor) (reading g colMajor).
Proof.
  intros Hm Hsol.
  destruct (SudokuSolver_result m Hm) as (n1 & s1 & b & s2 & F1 & H1 & H2 & Hwf2 & Hrun).
  destruct (solveLogical_keeps g enough (setup m) s1) as [Hex1 Hkeeps1];
    [apply Hsol | apply setup_exact | by apply solution_keeps | done |].
  destruct b.
  - exists s2. split_and!; [done|done|].
    exact (solveBacktrack_least enough 0 0 s1 g s2 Hex1 (proj1 Hsol) Hkeeps1
             ltac:(lia) ltac:(lia) H2).
  - exfalso.
    exact (solveBacktrack_complete enough 0 0 s1 g s2 Hex1 (proj1 Hsol) Hkeeps1
             ltac:(lia) ltac:(lia) H2).
Qed.

Lemma solveBacktrack_full fuel : forall i j s b s',
  (forall r c, r < 9 -> c < 9 -> (0 < cell s r c)%Z) -> i <= 9 -> j < 9 ->
  solveBacktrack fuel i j s = Some (b, s') -> b = true /\ s' = s.
Proof.
  induction fuel as [|fuel IH]; intros i j s b s' Hfull Hi Hj.
  { rewrite (eq_refl : solveBacktrack 0 i j s = None). done. }
  rewrite solveBacktrack_unfold by done.
  case_decide as Hn; [by intros [= <- <-]|].
  destruct (pos_norm i j Hi Hj Hn) as (_ & _ & _ & Hi' & Hj' & _). cbv zeta.
  destruct (Z.ltb_spec 0 (cell s (pos i j mod 9) (pos i j / 9))) as [Hc|Hc].
  - apply IH; auto with lia.
  - specialize (Hfull _ _ Hi' Hj'). lia.
Qed.

Lemma fills_none s s' : fills 0 s s' -> s' = s.
Proof. by inversion 1. Qed.

Lemma solveBacktrack_before fuel : forall i j s b s',
  wf s -> i <= 9 -> j < 9 ->
  solveBacktrack fuel i j s = Some (b, s') ->
  forall r c, r < 9 -> c < 9 -> pos r c < pos i j -> cell s' r c = cell s r c.
Proof.
  induction fuel as [|fuel IH]; intros i j s b s' Hwf Hi Hj.
  { rewrite (eq_refl : solveBacktrack 0 i j s = None). done. }
  intros Hrun. destruct b.
  2:{ by rewrite (solveBacktrack_false (S fuel) i j s s' Hwf Hi Hj Hrun). }
  revert Hrun. rewrite solveBacktrack_unfold by done.
  case_decide as Hn; [by intros [= <-]|].
  destruct (pos_norm i j Hi Hj Hn) as (_ & _ & _ & Hi' & Hj' & Hp). cbv zeta.
  set (i' := pos i j mod 9) in *. set (j' := pos i j / 9) in *.
  destruct (Z.ltb_spec 0 (cell s i' j')) as [Hc|Hc].
  - intros Hrun r c Hr Hc' Hlt. apply (IH (S i') j' s true s'); auto with lia.
  - rewrite tryVals_entry; auto using digits_range.
    2:{ intros s1 s2 Hs1. apply solveBacktrack_false; auto with lia. }
    intros (val & Hval%seqZ_digits & Hok & Hrun)%cleanTry_true r c Hr Hc' Hlt.
    rewrite (IH (S i') j' (place s i' j' val) true s'); auto with lia.
    + rewrite cell_place by (done || apply Hwf). rewrite decide_False; [done|].
      intros [= -> ->]. unfold pos, i', j' in *. 
      pose proof (Nat.div_mod_eq (9 * j + i) 9). lia.
    + by apply wf_place.
Qed.

(** ** The properties *)

Lemma cells_in_range g :
  forallb (fun p : nat * nat =>
    (1 <=? get2 0 g p.1 p.2)%Z && (get2 0 g p.1 p.2 <=? 9)%Z) colMajor = true ->
  forall r c, r < 9 -> c < 9 -> (1 <= get2 0 g r c <= 9)%Z.
Proof.
  intros H r c Hr Hc. pose proof (forallb_cells _ r c H Hr Hc) as E.
  cbn [fst snd] in E. lia.
Qed.

Lemma cells_same_given m m' :
  forallb (fun p : nat * nat =>
    (given (get2 0 m p.1 p.2) =? given (get2 0 m' p.1 p.2))%Z) colMajor = true ->
  forall r c, r < 9 -> c < 9 -> given (get2 0%Z m r c) = given (get2 0%Z m' r c).
Proof.
  intros H r c Hr Hc. pose proof (forallb_cells _ r c H Hr Hc) as E.
  cbn [fst snd] in E. lia.
Qed.

Lemma given_digit x : (1 <= x <= 9)%Z -> given x = x.
Proof. intros Hx. unfold given, NUM. destruct (Z.ltb_spec x 1), (Z.ltb_spec (Z.of_nat 9) x); simpl; lia. Qed.

(** X1: in every state that committed placements reach from the state the
    constructor builds, [checkValid] accepts digit [d] at cell [i,j] exactly
    when no cell of row [i], of column [j] or of the block of [i,j] holds
    [d]: the three tag tables answer for the grid. *)
Theorem legal_iff_absent m n s i j d :
  fills n (setup m) s -> i < 9 -> j < 9 -> (1 <= d <= 9)%Z ->
  checkValid s i j d = true <->
  forall r c, r < 9 -> c < 9 -> sameUnit i j r c -> cell s r c <> d.
Proof.
  intros Hfills Hi Hj Hd. apply checkValid_absent; [|done..].
  apply (fills_exact n (setup m)); [done|apply setup_exact].
Qed.

Lemma legal_iff_absent_witness :
  fills 0 (setup oneInRow) (setup oneInRow) /\
  (checkValid (setup oneInRow) 4 4 1 = true <->
   forall r c, r < 9 -> c < 9 -> sameUnit 4 4 r c -> cell (setup oneInRow) r c <> 1%Z).
Proof.
  split; [apply fills_refl|].
  apply (legal_iff_absent oneInRow 0 (setup oneInRow) 4 4 1);
    [apply fills_refl | lia | lia | lia].
Defined.

(** X2: a 9x9 grid whose cells all hold a digit 1..9 comes back from the
    constructor as it went in, with nothing written to [cerr], whether or
    not it respects the rules: neither solver looks at a filled cell. *)
Theorem full_grid_returned m :
  shape9 m ->
  (forall r c, r < 9 -> c < 9 -> (1 <= get2 0 m r c <= 9)%Z) ->
  SudokuSolver m = Some (Run (Returns m) []).
Proof.
  intros Hm Hfull.
  destruct (SudokuSolver_result m Hm) as (n1 & s1 & b & s2 & F1 & _ & H2 & Hwf2 & ->).
  assert (Hcell : forall r c, r < 9 -> c < 9 -> cell s1 r c = get2 0%Z m r c).
  { intros r c Hr Hc. specialize (Hfull r c Hr Hc).
    rewrite (fills_keep n1 (setup m) s1 r c F1 (setup_wf m)).
    - rewrite setup_cell by done. by apply given_digit.
    - rewrite setup_cell, given_digit by done. lia. }
  destruct (solveBacktrack_full enough 0 0 s1 b s2) as [-> ->]; [|lia|lia|done|].
  { intros r c Hr Hc. rewrite Hcell by done. specialize (Hfull r c Hr Hc). lia. }
  do 3 f_equal. apply (shape9_ext 0%Z); [apply Hwf2|done|].
  intros r c Hr Hc. rewrite <- cell_get2. by apply Hcell.
Qed.

Lemma full_grid_returned_witness :
  SudokuSolver hiddenSingleGrid = Some (Run (Returns hiddenSingleGrid) []).
Proof.
  apply (full_grid_returned hiddenSingleGrid); [shape|].
  apply cells_in_range. by vm_compute.
Defined.

(** X3: what the constructor does depends on its argument only through the
    digits 1..9 in it: two 9x9 grids that hold the same digits 1..9 in the
    same cells, and anything else elsewhere, give the same run. *)
Theorem garbage_ignored m m' :
  shape9 m -> shape9 m' ->
  (forall r c, r < 9 -> c < 9 -> given (get2 0%Z m r c) = given (get2 0%Z m' r c)) ->
  SudokuSolver m = SudokuSolver m'.
Proof.
  intros Hm Hm' Hsame.
  destruct (SudokuSolver_result m Hm) as (_ & s1 & b & s2 & _ & H1 & H2 & _ & ->).
  destruct (SudokuSolver_result m' Hm') as (_ & s1' & b' & s2' & _ & H1' & H2' & _ & ->).
  rewrite <- (setup_given m m' Hsame) in H1'.
  assert (s1' = s1) as -> by congruence.
  assert (E : (b', s2') = (b, s2)) by congruence.
  by injection E as -> ->.
Qed.

Lemma garbage_ignored_witness : SudokuSolver garbage = SudokuSolver emptyMatrix.
Proof.
  apply (garbage_ignored garbage emptyMatrix); [shape | shape |].
  apply cells_same_given. by vm_compute.
Defined.

(** X4: the logical pass writes forced digits only: in the state it ends
    in, every filled cell holds the digit that any solution of the puzzle
    has in that cell. *)
Theorem logical_pass_forced m g fuel s' :
  solution m g -> solveLogical fuel (setup m) = Some s' -> keeps s' g.
Proof.
  intros Hsol Hrun.
  apply (solveLogical_keeps g fuel (setup m) s');
    [apply Hsol | apply setup_exact | by apply solution_keeps | done].
Qed.

Lemma logical_pass_forced_witness :
  cell (setup hiddenSingle) 2 2 = 0%Z /\
  exists s', solveLogical enough (setup hiddenSingle) = Some s' /\
    cell s' 2 2 = 1%Z /\ keeps s' hiddenSingleGrid.
Proof.
  split; [by vm_compute|].
  assert (H : exists s', solveLogical enough (setup hiddenSingle) = Some s' /\
                cell s' 2 2 = 1%Z).
  { vm_compute. eexists. split; reflexivity. }
  destruct H as (s' & H & Hc). exists s'. split_and!; [exact H|exact Hc|].
  apply (logical_pass_forced hiddenSingle hiddenSingleGrid enough s'); [|exact H].
  apply solutionb_sound. by vm_compute.
Defined.

(** X5: the search is complete.  From a state that committed placements
    reach from the constructor's, and whose digits all stand in some
    solution of the puzzle, a call of [solveBacktrack] that returns never
    returns [false]. *)
Theorem search_complete m g n s fuel i j b s' :
  solution m g -> fills n (setup m) s -> keeps s g -> i <= 9 -> j < 9 ->
  solveBacktrack fuel i j s = Some (b, s') -> b = true.
Proof.
  intros Hsol Hfills Hkeeps Hi Hj Hrun. destruct b; [done|]. exfalso.
  apply (solveBacktrack_complete fuel i j s g s'); try done; [|apply Hsol].
  apply (fills_exact n (setup m)); [done|apply setup_exact].
Qed.

Lemma search_complete_witness :
  exists b s', solveBacktrack enough 3 2 (setup hiddenSingle) = Some (b, s') /\ b = true.
Proof.
  destruct (solveBacktrack_total enough 3 2 (setup hiddenSingle)) as [[b s'] H];
    [lia | lia | unfold enough, pos; lia |].
  exists b, s'. split; [exact H|].
  apply (search_complete hiddenSingle hiddenSingleGrid 0 (setup hiddenSingle)
           enough 3 2 b s'); [|apply fills_refl| |lia|lia|exact H].
  - apply solutionb_sound. by vm_compute.
  - apply solution_keeps, solutionb_sound. by vm_compute.
Defined.

(** X6: the constructor returns exactly on the puzzles that have a
    solution.  For a 9x9 grid: some solved grid carries the given digits if
    and only if the given digits respect the rules and the constructor
    returns, with nothing written to [cerr]. *)
Theorem returns_iff_solvable m :
  shape9 m ->
  (exists g, solution m g) <->
  validGivens m /\ exists out, SudokuSolver m = Some (Run (Returns out) []).
Proof.
  intros Hm. split.
  - intros [g Hsol]. split; [by apply (solution_validGivens m g)|].
    destruct (run_of_solution m g Hm Hsol) as (s & _ & Hrun & _). by eexists.
  - intros [Hvalid [out Hrun]]. exists out. by apply (SudokuSolver_sound m out []).
Qed.

Lemma returns_iff_solvable_witness :
  validGivens hiddenSingle /\
  exists out, SudokuSolver hiddenSingle = Some (Run (Returns out) []).
Proof.
  apply (proj1 (returns_iff_solvable hiddenSingle ltac:(shape))).
  exists hiddenSingleGrid. apply solutionb_sound. by vm_compute.
Defined.

(** X7: for a 9x9 grid whose given digits respect the rules, the
    constructor writes its complaint and exits with status 1 exactly when
    no solved grid carries the given digits. *)
Theorem exits_iff_unsolvable m :
  shape9 m -> validGivens m ->
  SudokuSolver m = Some (Run (Exits 1) complaint) <-> forall g, solution m g -> False.
Proof.
  intros Hm Hvalid. split.
  - intros Hrun g Hsol.
    destruct (run_of_solution m g Hm Hsol) as (s & _ & Hrun' & _). congruence.
  - intros Hnone.
    destruct (SudokuSolver_result m Hm) as (_ & _ & b & s2 & _ & _ & _ & _ & Hrun).
    destruct b; [|done]. exfalso.
    apply (Hnone (problemMatrix s2)). by apply (SudokuSolver_sound m _ []).
Qed.

Lemma exits_iff_unsolvable_witness :
  validGivens deadEnd /\
  SudokuSolver deadEnd = Some (Run (Exits 1) complaint) /\
  (forall g, solution deadEnd g -> False).
Proof.
  assert (Hvalid : validGivens deadEnd) by (apply validGivensb_sound; by vm_compute).
  assert (H : SudokuSolver deadEnd = Some (Run (Exits 1) complaint)) by by vm_compute.
  split_and!; [exact Hvalid|exact H|].
  exact (proj1 (exits_iff_unsolvable deadEnd ltac:(shape) Hvalid) H).
Defined.

(** X8: when a puzzle has one solution only, the constructor returns that
    grid. *)
Theorem unique_solution_returned m g :
  shape9 m -> solution m g ->
  (forall g', shape9 g' -> solution m g' -> g' = g) ->
  SudokuSolver m = Some (Run (Returns g) []).
Proof.
  intros Hm Hsol Huniq.
  destruct (run_of_solution m g Hm Hsol) as (s & Hwf & Hrun & _).
  rewrite Hrun. do 3 f_equal. apply Huniq; [apply Hwf|].
  apply (SudokuSolver_sound m _ []); [done| |done].
  by apply (solution_validGivens m g).
Qed.

Lemma unique_solution_returned_witness :
  SudokuSolver firstGrid = Some (Run (Returns firstGrid) []).
Proof.
  assert (Hdig : forall r c, r < 9 -> c < 9 -> (1 <= get2 0 firstGrid r c <= 9)%Z).
  { apply cells_in_range. by vm_compute. }
  apply (unique_solution_returned firstGrid firstGrid); [shape| |].
  - apply solutionb_sound. by vm_compute.
  - intros g' Hg' [_ Hgiven]. apply (shape9_ext 0%Z); [done|shape|].
    intros r c Hr Hc. specialize (Hdig r c Hr Hc).
    rewrite Hgiven by (rewrite ?given_digit; done || lia). by apply given_digit.
Defined.

(** X9: among the solutions of a puzzle the constructor returns the least
    one: read column by column, each column from the top, the returned grid
    comes first in the dictionary order among all solved grids that carry
    the given digits. *)
Theorem least_solution_returned m g out cs :
  shape9 m -> solution m g ->
  SudokuSolver m = Some (Run (Returns out) cs) ->
  lexLe (reading out colMajor) (reading g colMajor).
Proof.
  intros Hm Hsol Hrun.
  destruct (run_of_solution m g Hm Hsol) as (s & _ & Hrun' & Hle).
  rewrite Hrun' in Hrun. by injection Hrun as <- _.
Qed.

Lemma least_solution_returned_witness :
  SudokuSolver emptyMatrix = Some (Run (Returns firstGrid) []) /\
  lexLe (reading firstGrid colMajor) (reading hiddenSingleGrid colMajor).
Proof.
  assert (H : SudokuSolver emptyMatrix = Some (Run (Returns firstGrid) []))
    by by vm_compute.
  split; [exact H|].
  apply (least_solution_returned emptyMatrix hiddenSingleGrid firstGrid []);
    [shape | | exact H].
  apply solutionb_sound. by vm_compute.
Defined.

(** X10: the loop of the logical pass ends: run on a well-formed state it
    makes at most one turn more than the state has empty cells. *)
Theorem logical_pass_turns s fuel :
  wf s -> emptyCount s < fuel -> is_Some (solveLogical fuel s).
Proof.
  intros Hwf Hlt. destruct fuel as [|fuel]; [lia|].
  by apply (logicalLoop_total (S fuel) (s, Locals 0 0 0 false false)).
Qed.

Lemma logical_pass_turns_witness :
  emptyCount (setup hiddenSingle) = 77 /\
  is_Some (solveLogical 78 (setup hiddenSingle)).
Proof.
  assert (H : emptyCount (setup hiddenSingle) = 77) by by vm_compute.
  split; [exact H|].
  apply (logical_pass_turns (setup hiddenSingle) 78); [apply setup_wf|].
  rewrite H. lia.
Defined.

(** X11: the recursion of the search ends: a call at cell [i,j] nests at
    most one call for each cell from [i,j] on in column-major order, and
    one more for the end of the grid. *)
Theorem search_depth fuel i j s :
  i <= 9 -> j < 9 -> 82 <= fuel + pos i j -> is_Some (solveBacktrack fuel i j s).
Proof. apply solveBacktrack_total. Qed.

Lemma search_depth_witness :
  pos 4 8 = 76 /\ is_Some (solveBacktrack 6 4 8 (setup firstGrid)).
Proof.
  split; [reflexivity|].
  apply (search_depth 6 4 8 (setup firstGrid)); [lia | lia | unfold pos; lia].
Defined.

(** X12: a call of the search at cell [i,j] leaves alone every cell that
    comes before [i,j] in column-major order, whatever it returns. *)
Theorem search_writes_from_position fuel i j s b s' r c :
  wf s -> i <= 9 -> j < 9 ->
  solveBacktrack fuel i j s = Some (b, s') ->
  r < 9 -> c < 9 -> pos r c < pos i j -> cell s' r c = cell s r c.
Proof.
  intros Hwf Hi Hj Hrun. by apply (solveBacktrack_before fuel i j s b s').
Qed.

Lemma search_writes_from_position_witness :
  exists b s', solveBacktrack enough 0 1 (setup emptyMatrix) = Some (b, s') /\
    cell s' 0 1 = 1%Z /\ cell s' 8 0 = 0%Z.
Proof.
  assert (H : exists b s', solveBacktrack enough 0 1 (setup emptyMatrix) = Some (b, s') /\
                cell s' 0 1 = 1%Z).
  { vm_compute. do 2 eexists. split; reflexivity. }
  destruct H as (b & s' & H & Hc). exists b, s'. split_and!; [exact H|exact Hc|].
  rewrite (search_writes_from_position enough 0 1 (setup emptyMatrix) b s' 8 0
             (setup_wf emptyMatrix) ltac:(lia) ltac:(lia) H ltac:(lia) ltac:(lia)
             ltac:(unfold pos; lia)).
  by vm_compute.
Defined.

(** X13: solving is idempotent: a grid that the constructor returned, given
    to the constructor again, comes back unchanged. *)
Theorem solving_idempotent m out cs :
  shape9 m -> SudokuSolver m = Some (Run (Returns out) cs) ->
  SudokuSolver out = Some (Run (Returns out) []).
Proof.
  intros Hm Hrun.
  destruct (SudokuSolver_result m Hm) as (n1 & s1 & b & s2 & F1 & H1 & H2 & Hwf2 & Hrun').
  rewrite Hrun' in Hrun. destruct b; [|done]. injection Hrun as <- _.
  assert (Hwf1 : wf s1) by (apply (fills_wf n1 (setup m)); [done|apply setup_wf]).
  destruct (solveBacktrack_true enough 0 0 s1 s2 Hwf1 ltac:(lia) ltac:(lia) H2)
    as (_ & Hfull).
  destruct (SudokuSolver_result (problemMatrix s2) (proj1 Hwf2))
    as (n3 & s3 & b' & s4 & F3 & _ & H4 & Hwf4 & ->).
  assert (Hdig : forall r c, r < 9 -> c < 9 -> (1 <= get2 0 (problemMatrix s2) r c <= 9)%Z).
  { intros r c Hr Hc. rewrite <- cell_get2.
    destruct Hwf2 as (_ & _ & _ & _ & Hv).
    specialize (Hv r c Hr Hc). specialize (Hfull r c Hr Hc ltac:(unfold pos; lia)). lia. }
  assert (Hcell : forall r c, r < 9 -> c < 9 -> cell s3 r c = get2 0%Z (problemMatrix s2) r c).
  { intros r c Hr Hc. specialize (Hdig r c Hr Hc).
    rewrite (fills_keep n3 (setup (problemMatrix s2)) s3 r c F3 (setup_wf _)).
    - rewrite setup_cell by done. by apply given_digit.
    - rewrite setup_cell, given_digit by done. lia. }
  destruct (solveBacktrack_full enough 0 0 s3 b' s4) as [-> ->]; [|lia|lia|done|].
  { intros r c Hr Hc. rewrite Hcell by done. specialize (Hdig r c Hr Hc). lia. }
  do 3 f_equal. apply (shape9_ext 0%Z); [apply Hwf4|apply Hwf2|].
  intros r c Hr Hc. rewrite <- cell_get2. by apply Hcell.
Qed.

Lemma solving_idempotent_witness :
  SudokuSolver hiddenSingle = Some (Run (Returns hiddenSingleGrid) []) /\
  SudokuSolver hiddenSingleGrid = Some (Run (Returns hiddenSingleGrid) []).
Proof.
  assert (H : SudokuSolver hiddenSingle = Some (Run (Returns hiddenSingleGrid) []))
    by by vm_compute.
  split; [exact H|].
  apply (solving_idempotent hiddenSingle hiddenSingleGrid []); [shape|exact H].
Defined.

(** ** [main.cc]: the reading loop *)

Lemma initPuzzle_zero m : shape9 m -> Main.initPuzzle m = emptyMatrix.
Proof.
  intros Hm. unfold Main.initPuzzle.
  change (seq 0 9) with (seq 0 NUM). rewrite for_each_nested, rowMajor_nested.
  set (s0 := initPuzzle (initTag (Solver [] [] [] []))).
  rewrite (for_each_ext rowMajor _ (writeStep s0)).
  - rewrite <- writeBack_cells, writeBack_eq by (done || apply wf_initial). done.
  - intros p m' _. unfold writeStep, s0. by rewrite cell_initial.
Qed.

Lemma store_cell t m r c :
  shape9 m -> r < 9 -> c < 9 ->
  shape9 (Main.store t m) /\
  get2 0%Z (Main.store t m) r c = if decide (writes r c t) then t.2 else get2 0%Z m r c.
Proof.
  intros Hm Hr Hc. destruct t as [[row col] value]. unfold Main.store, writes.
  cbn [fst snd].
  destruct (Z.ltb_spec row 1), (Z.ltb_spec 9 row), (Z.ltb_spec col 1),
    (Z.ltb_spec 9 col), (Z.ltb_spec value 1), (Z.ltb_spec 9 value);
    cbn [orb]; try (split; [done|]; rewrite decide_False by lia; done).
  split; [by apply shape9_set2|].
  rewrite get2_set2 by (done || lia).
  destruct (decide ((r, c) = (Z.to_nat (row - 1), Z.to_nat (col - 1)))) as [[= -> ->]|Hne].
  - rewrite decide_True by lia. done.
  - rewrite decide_False; [done|]. intros (-> & -> & _). apply Hne. f_equal; lia.
Qed.

Lemma store_cells turns : forall m r c,
  shape9 m -> r < 9 -> c < 9 ->
  shape9 (for_each turns Main.store m) /\
  get2 0%Z (for_each turns Main.store m) r c =
    default (get2 0%Z m r c) (snd <$> last (filter (writes r c) turns)).
Proof.
  induction turns as [|t turns IH] using rev_ind; intros m r c Hm Hr Hc; [done|].
  rewrite for_each_app, for_each_cons. change (for_each [] _ ?x) with x.
  destruct (IH m r c Hm Hr Hc) as [Hshape Hcell].
  destruct (store_cell t (for_each turns Main.store m) r c Hshape Hr Hc) as [Hshape' ->].
  split; [done|]. rewrite filter_app, filter_cons, filter_nil.
  case_decide as Hw.
  - by rewrite last_snoc.
  - by rewrite app_nil_r.
Qed.

Lemma readPuzzle_cell turns m r c :
  shape9 m -> r < 9 -> c < 9 ->
  shape9 (Main.readPuzzle turns m) /\
  get2 0%Z (Main.readPuzzle turns m) r c =
    default 0%Z (snd <$> last (filter (writes r c) turns)).
Proof.
  intros Hm Hr Hc. unfold Main.readPuzzle. rewrite initPuzzle_zero by done.
  destruct (store_cells turns emptyMatrix r c) as [Hs ->]; try done.
  { apply shape9_replicate. }
  split; [done|]. f_equal.
  change (cell (initPuzzle (initTag (Solver [] [] [] []))) r c = 0%Z). apply cell_initial.
Qed.

Lemma readPuzzle_digits turns m : shape9 m -> digitsOrZero (Main.readPuzzle turns m).
Proof.
  intros Hm r c Hr Hc. destruct (readPuzzle_cell turns m r c Hm Hr Hc) as [_ ->].
  destruct (last (filter (writes r c) turns)) as [t|] eqn:E; simpl; [|lia].
  apply last_Some in E as [l E].
  assert (Ht : t ∈ filter (writes r c) turns).
  { rewrite E, elem_of_app. right. by left. }
  apply list_elem_of_filter in Ht as [(_ & _ & Hv) _]. lia.
Qed.

Lemma given_digitOrZero x : (0 <= x <= 9)%Z -> given x = x.
Proof.
  intros Hx. unfold given, NUM.
  destruct (Z.ltb_spec x 1), (Z.ltb_spec (Z.of_nat 9) x); simpl; lia.
Qed.

(** ** [main.cc]: the text of the result *)

Lemma text_cons (x : Ascii.ascii) (a b : string) : String x a << b = String x (a << b).
Proof. reflexivity. Qed.

Lemma text_assoc (a b c : string) : a << b << c = a << (b << c).
Proof. induction a as [|x a IH]; [done|]. by rewrite !text_cons, IH. Qed.

Lemma text_empty (a : string) : a << "" = a.
Proof. induction a as [|x a IH]; [done|]. by rewrite text_cons, IH. Qed.

Lemma text_length (a b : string) :
  String.length (a << b) = String.length a + String.length b.
Proof.
  induction a as [|x a IH]; [done|]. rewrite text_cons. cbn [String.length].
  by rewrite IH.
Qed.

Lemma text_split (a a' b b' : string) :
  String.length a = String.length a' -> a << b = a' << b' -> a = a' /\ b = b'.
Proof.
  revert a'. induction a as [|x a IH]; intros [|x' a']; try done.
  rewrite !text_cons. cbn [String.length].
  intros [= Hl] [= -> E]. destruct (IH a' Hl E) as [-> ->]. done.
Qed.

Lemma text_split_r (a a' b b' : string) :
  String.length b = String.length b' -> a << b = a' << b' -> a = a' /\ b = b'.
Proof.
  intros Hl E. apply text_split; [|done].
  pose proof (f_equal String.length E) as El. rewrite !text_length in El. lia.
Qed.

Lemma for_each_put {A} (piece : A -> string) (xs : list A) (out : string) :
  for_each xs (fun x o => o << piece x) out = out << flat (piece <$> xs).
Proof.
  revert out. induction xs as [|x xs IH]; intros out.
  - symmetry. apply text_empty.
  - rewrite for_each_cons, IH, text_assoc. done.
Qed.

Lemma flat_length {A} (f f' : A -> string) (xs : list A) :
  (forall x, x ∈ xs -> String.length (f x) = String.length (f' x)) ->
  String.length (flat (f <$> xs)) = String.length (flat (f' <$> xs)).
Proof.
  induction xs as [|x xs IH]; intros H; [done|].
  rewrite !fmap_cons. unfold flat. cbn [fold_right]. rewrite !text_length.
  rewrite (H x) by left. f_equal. apply IH. intros y Hy. apply H. by right.
Qed.

Lemma flat_inj {A} (f f' : A -> string) (xs : list A) :
  (forall x, x ∈ xs -> String.length (f x) = String.length (f' x)) ->
  flat (f <$> xs) = flat (f' <$> xs) ->
  forall x, x ∈ xs -> f x = f' x.
Proof.
  induction xs as [|y xs IH]; intros Hl E x Hx; [by apply elem_of_nil in Hx|].
  rewrite !fmap_cons in E. unfold flat in E. cbn [fold_right] in E.
  apply text_split in E as [E1 E2]; [|apply Hl; left].
  apply elem_of_cons in Hx as [->|Hx]; [done|].
  apply IH; [|done|done]. intros z Hz. apply Hl. by right.
Qed.

Lemma writeOutFile_text name out m :
  Main.writeOutFile name out m =
  out << (name << (endl << flat (rowText m <$> seq 0 9))).
Proof.
  unfold Main.writeOutFile. cbv zeta.
  rewrite (for_each_ext (seq 0 9) _ (fun row o => o << rowText m row)).
  - rewrite for_each_put, !text_assoc. done.
  - intros row o _.
    rewrite (for_each_ext (seq 0 9) _ (fun col o => o << cellText m row col)).
    + rewrite for_each_put. unfold rowText, rowEnd.
      destruct (((row + 1) mod 3 =? 0) && negb (row =? 8)); by rewrite !text_assoc.
    + intros col o' _. unfold cellText.
      destruct (((col + 1) mod 3 =? 0) && negb (col =? 8));
        rewrite ?text_assoc, ?text_empty; done.
Qed.

Lemma pretty_digit (v : Z) : (0 <= v <= 9)%Z -> String.length (pretty v) = 1.
Proof.
  intros Hv.
  assert (E : v ∈ seqZ 0 10) by (apply elem_of_seqZ; lia).
  revert E. generalize v. apply Forall_forall. by vm_compute; repeat constructor.
Qed.

Lemma cellText_length m m' row col :
  digitsOrZero m -> digitsOrZero m' -> row < 9 -> col < 9 ->
  String.length (cellText m row col) = String.length (cellText m' row col).
Proof.
  intros Hm Hm' Hr Hc. unfold cellText.
  rewrite !text_length, !pretty_digit by auto. done.
Qed.

Lemma rowText_cells m m' row :
  digitsOrZero m -> digitsOrZero m' -> row < 9 ->
  rowText m row = rowText m' row ->
  forall col, col < 9 -> get2 0%Z m row col = get2 0%Z m' row col.
Proof.
  intros Hm Hm' Hr E col Hc. unfold rowText in E.
  apply text_split_r in E as [E _]; [|done].
  assert (Hcol : col ∈ seq 0 9) by (apply elem_of_seq; lia).
  assert (Hlen : forall x, x ∈ seq 0 9 ->
    String.length (cellText m row x) = String.length (cellText m' row x)).
  { intros x Hx%elem_of_seq. apply cellText_length; auto with lia. }
  pose proof (flat_inj _ _ _ Hlen E col Hcol) as Ec.
  unfold cellText in Ec.
  apply (inj (String.append " *")) in Ec.
  apply text_split in Ec as [Ec _]; [|by rewrite !pretty_digit by auto].
  by apply (inj pretty) in Ec.
Qed.

Lemma rowText_length m m' row :
  digitsOrZero m -> digitsOrZero m' -> row < 9 ->
  String.length (rowText m row) = String.length (rowText m' row).
Proof.
  intros Hm Hm' Hr. unfold rowText. rewrite !text_length. f_equal.
  apply flat_length. intros col Hc%elem_of_seq. apply cellText_length; auto with lia.
Qed.

Lemma writeOutFile_cells name out m m' :
  digitsOrZero m -> digitsOrZero m' ->
  Main.writeOutFile name out m = Main.writeOutFile name out m' ->
  forall r c, r < 9 -> c < 9 -> get2 0%Z m r c = get2 0%Z m' r c.
Proof.
  intros Hm Hm'. rewrite !writeOutFile_text.
  intros E%(inj (String.append out))%(inj (String.append name))%(inj (String.append endl)).
  intros r c Hr Hc. apply (rowText_cells m m' r); try done.
  apply (flat_inj _ _ (seq 0 9)); [|done|apply elem_of_seq; lia].
  intros row Hrow%elem_of_seq. apply rowText_length; auto with lia.
Qed.

(** ** The properties of [main.cc] *)

(** X14: the reading loop of [main] leaves in each cell the value of the
    last turn whose row and column name the cell and whose three numbers
    all lie in 1..9, and 0 when there is no such turn; turns with a number
    outside 1..9 change nothing. *)
Theorem last_triple_wins turns m r c :
  shape9 m -> r < 9 -> c < 9 ->
  get2 0%Z (Main.readPuzzle turns m) r c =
    default 0%Z (snd <$> last (filter (writes r c) turns)).
Proof. intros Hm Hr Hc. by apply readPuzzle_cell. Qed.

Lemma last_triple_wins_witness :
  get2 0%Z (Main.readPuzzle [(1, 2, 5); (1, 2, 7); (1, 2, 12); (0, 2, 3); (1, 10, 4)]%Z
              garbage) 0 1 = 7%Z.
Proof.
  rewrite (last_triple_wins _ garbage 0 1 ltac:(shape) ltac:(lia) ltac:(lia)).
  by vm_compute.
Defined.

(** X15: whatever the input file holds and whatever the local array of
    [main] held before, the grid that the reading loop leaves is 9x9 and
    every cell of it holds 0 or a digit 1..9. *)
Theorem loaded_grid_digits turns m :
  shape9 m ->
  shape9 (Main.readPuzzle turns m) /\ digitsOrZero (Main.readPuzzle turns m).
Proof.
  intros Hm. split; [|by apply readPuzzle_digits].
  destruct (readPuzzle_cell turns m 0 0 Hm) as [Hshape _]; [lia|lia|done].
Qed.

Lemma loaded_grid_digits_witness :
  shape9 (Main.readPuzzle [(1, 2, 5); (3, 4, -6); (9, 9, 9)]%Z garbage) /\
  digitsOrZero (Main.readPuzzle [(1, 2, 5); (3, 4, -6); (9, 9, 9)]%Z garbage).
Proof. apply (loaded_grid_digits _ garbage). shape. Defined.

(** X16: the constructor takes over the grid of [main] as it is: the
    matrix that [solvePuzzle] starts from is the grid that the reading loop
    left, no cell of it is dropped as garbage. *)
Theorem constructor_reads_loaded_grid turns m :
  shape9 m ->
  problemMatrix (setup (Main.readPuzzle turns m)) = Main.readPuzzle turns m.
Proof.
  intros Hm. destruct (readPuzzle_cell turns m 0 0 Hm) as [Hshape _]; [lia|lia|].
  apply (shape9_ext 0%Z); [apply setup_wf|done|].
  intros r c Hr Hc. rewrite <- cell_get2, setup_cell by done.
  apply given_digitOrZero. by apply readPuzzle_digits.
Qed.

Lemma constructor_reads_loaded_grid_witness :
  problemMatrix (setup (Main.readPuzzle [(1, 4, 1); (2, 7, 1); (4, 1, 1); (7, 2, 1)]%Z
                          garbage)) = hiddenSingle.
Proof.
  rewrite (constructor_reads_loaded_grid _ garbage ltac:(shape)). by vm_compute.
Defined.

(** X17: the text that [writeOutFile] writes tells the grid: for two grids
    of digits (or zeros) that differ in a cell, written under the same name
    after the same text, the texts differ. *)
Theorem written_text_tells_grid name out m m' r c :
  digitsOrZero m -> digitsOrZero m' -> r < 9 -> c < 9 ->
  get2 0%Z m r c <> get2 0%Z m' r c ->
  Main.writeOutFile name out m <> Main.writeOutFile name out m'.
Proof.
  intros Hm Hm' Hr Hc Hne E. apply Hne.
  by apply (writeOutFile_cells name out m m' Hm Hm' E).
Qed.

Lemma written_text_tells_grid_witness :
  get2 0%Z firstGrid 0 1 = 4%Z /\ get2 0%Z hiddenSingleGrid 0 1 = 5%Z /\
  Main.writeOutFile "puzzle" "" firstGrid <> Main.writeOutFile "puzzle" "" hiddenSingleGrid.
Proof.
  split_and!; [reflexivity|reflexivity|].
  apply (written_text_tells_grid "puzzle" "" firstGrid hiddenSingleGrid 0 1);
    [| |lia|lia|by vm_compute].
  - intros r c Hr Hc. pose proof (cells_in_range firstGrid ltac:(by vm_compute) r c Hr Hc).
    lia.
  - intros r c Hr Hc.
    pose proof (cells_in_range hiddenSingleGrid ltac:(by vm_compute) r c Hr Hc). lia.
Defined.
